(** * GameForge job queue and model cache: a shallow embedding

    The development follows two source files of the repository:

    - [services/enhanced_queue_manager.py]: [QueuePriority], [JobStatus],
      [QueueJob], [RateLimiter], [DeadLetterQueue], [EnhancedQueueManager];
    - [services/asset-gen/enhanced_ai_pipeline.py]: [EnhancedModelCache].

    Conventions of the embedding.

    - The Redis server is a record of finite maps, one per family of keys the
      code uses (job hashes, counters, results, lists, sorted sets, sets), all
      indexed by the full key name.  The families have disjoint key prefixes,
      so a key never changes its type.  Replies are text, as with a client
      that decodes them.  Key expiry (TTL) is not modelled.
    - A text that holds a JSON document is kept as the document ([json]); the
      concrete syntax produced by [json.dumps] and read by [json.loads] is not
      modelled.  What [json.dumps(..., default=str)] does to values that JSON
      lacks (enum members, datetimes) is modelled: they become [str(value)].
    - A [datetime] is the number of microseconds since 1970-01-01 00:00:00 of
      a naive local time; [time.time()] is a number of microseconds too.
    - The clock and [uuid.uuid4()] are inputs ([Env]); the clock is read once
      per call of a manager operation, and calls run one after the other.
    - An exception that the source does not catch is a result ([Raise]); the
      store keeps every effect done before it.
    - The two background loops of the manager ([_background_cleanup],
      [_monitor_queues]) sleep and repeat for ever; they are left out. *)

From Stdlib Require Import ZArith Lia List Bool Ascii String.
From stdpp Require Import base option gmap strings list.

Open Scope Z_scope.

(** ** Decimal text *)

Module Decimal.

Definition digit (n : Z) : ascii := ascii_of_nat (48 + Z.to_nat (n mod 10)).

(** [%02d], [%04d] and [%06d] *)
Definition pad2 (n : Z) : string :=
  String (digit (n / 10)) (String (digit n) EmptyString).

Definition pad4 (n : Z) : string := pad2 (n / 100) +:+ pad2 n.

Definition pad6 (n : Z) : string := pad2 (n / 10000) +:+ pad4 n.

Definition digit_val (c : ascii) : option Z :=
  let n := Z.of_nat (nat_of_ascii c) in
  if (48 <=? n) && (n <=? 57) then Some (n - 48) else None.

(** the value of a run of decimal digits, [None] when a character is not a
    digit or the run is empty *)
Fixpoint digits_val_from (acc : Z) (cs : list ascii) : option Z :=
  match cs with
  | [] => Some acc
  | c :: cs' =>
      match digit_val c with
      | Some d => digits_val_from (10 * acc + d) cs'
      | None => None
      end
  end.

Definition digits_val (cs : list ascii) : option Z :=
  match cs with
  | [] => None
  | _ => digits_val_from 0 cs
  end.

End Decimal.

(** ** datetime *)

Module Datetime.

Import Decimal.

(** Gregorian calendar, days counted from 1970-01-01 *)
Definition days_from_civil (y m d : Z) : Z :=
  let y' := if m <=? 2 then y - 1 else y in
  let era := y' / 400 in
  let yoe := y' - era * 400 in
  let mp := if 2 <? m then m - 3 else m + 9 in
  let doy := (153 * mp + 2) / 5 + d - 1 in
  let doe := yoe * 365 + yoe / 4 - yoe / 100 + doy in
  era * 146097 + doe - 719468.

Definition civil_from_days (z : Z) : Z * Z * Z :=
  let z' := z + 719468 in
  let era := z' / 146097 in
  let doe := z' - era * 146097 in
  let yoe := (doe - doe / 1460 + doe / 36524 - doe / 146096) / 365 in
  let doy := doe - (365 * yoe + yoe / 4 - yoe / 100) in
  let mp := (5 * doy + 2) / 153 in
  let d := doy - (153 * mp + 2) / 5 + 1 in
  let m := if mp <? 10 then mp + 3 else mp - 9 in
  let y := yoe + era * 400 in
  ((if m <=? 2 then y + 1 else y), m, d).

Definition is_leap (y : Z) : bool :=
  ((y mod 4 =? 0) && negb (y mod 100 =? 0)) || (y mod 400 =? 0).

Definition days_in_month (y m : Z) : Z :=
  if m =? 2 then (if is_leap y then 29 else 28)
  else if (m =? 4) || (m =? 6) || (m =? 9) || (m =? 11) then 30 else 31.

Definition us_per_second : Z := 1000000.
Definition us_per_day : Z := 86400 * us_per_second.

(** [datetime(y, m, d, hh, mm, ss, us)] of valid fields *)
Definition of_fields (y m d hh mm ss us : Z) : Z :=
  days_from_civil y m d * us_per_day
  + ((hh * 60 + mm) * 60 + ss) * us_per_second + us.

(** [now + timedelta(seconds=n)] *)
Definition add_seconds (t n : Z) : Z := t + n * us_per_second.

(** [now - timedelta(hours=n)] and [now - timedelta(days=n)] *)
Definition sub_hours (t n : Z) : Z := t - n * 3600 * us_per_second.
Definition sub_days (t n : Z) : Z := t - n * us_per_day.

Definition date_text (t : Z) : string :=
  let '(y, m, d) := civil_from_days (t / us_per_day) in
  pad4 y +:+ "-" +:+ pad2 m +:+ "-" +:+ pad2 d.

Definition hour (t : Z) : Z := (t mod us_per_day) / (3600 * us_per_second).
Definition minute (t : Z) : Z := (t mod us_per_day) / (60 * us_per_second) mod 60.
Definition second (t : Z) : Z := (t mod us_per_day) / us_per_second mod 60.
Definition microsecond (t : Z) : Z := t mod us_per_second.

(** [t.isoformat(sep)]: the fraction is printed only when it is not zero *)
Definition isoformat_sep (sep : ascii) (t : Z) : string :=
  date_text t +:+ String sep EmptyString
  +:+ pad2 (hour t) +:+ ":" +:+ pad2 (minute t) +:+ ":" +:+ pad2 (second t)
  +:+ (if microsecond t =? 0 then "" else "." +:+ pad6 (microsecond t)).

(** [t.isoformat()] *)
Definition isoformat (t : Z) : string := isoformat_sep "T" t.

(** [str(t)] *)
Definition str (t : Z) : string := isoformat_sep " " t.

(** [t.strftime('%Y-%m-%d:%H:%M')], [('%Y-%m-%d:%H')] and [('%Y-%m-%d')] *)
Definition strftime_minute (t : Z) : string :=
  date_text t +:+ ":" +:+ pad2 (hour t) +:+ ":" +:+ pad2 (minute t).
Definition strftime_hour (t : Z) : string :=
  date_text t +:+ ":" +:+ pad2 (hour t).
Definition strftime_day (t : Z) : string := date_text t.

(** the fields of a time of day, [HH[:MM[:SS[.fff[fff]]]]] *)
Definition parse_fraction (cs : list ascii) : option Z :=
  match cs with
  | [] => Some 0
  | "."%char :: fs =>
      match fs with
      | [_; _; _] => z ← digits_val fs; Some (z * 1000)
      | [_; _; _; _; _; _] => digits_val fs
      | _ => None
      end
  | _ => None
  end.

Definition parse_time (cs : list ascii) : option (Z * Z * Z * Z) :=
  match cs with
  | h1 :: h2 :: rest =>
      hh ← digits_val [h1; h2];
      match rest with
      | [] => Some (hh, 0, 0, 0)
      | ":"%char :: m1 :: m2 :: rest' =>
          mm ← digits_val [m1; m2];
          match rest' with
          | [] => Some (hh, mm, 0, 0)
          | ":"%char :: s1 :: s2 :: rest'' =>
              ss ← digits_val [s1; s2];
              us ← parse_fraction rest'';
              Some (hh, mm, ss, us)
          | _ => None
          end
      | _ => None
      end
  | _ => None
  end.

(** [datetime.fromisoformat(s)] on the texts that [isoformat] emits for a
    naive datetime, [YYYY-MM-DD[*HH[:MM[:SS[.fff[fff]]]]]] with any separator
    character; [None] is [ValueError].  Texts with a UTC offset denote aware
    datetimes, which this model does not represent. *)
Definition fromisoformat (s : string) : option Z :=
  match list_ascii_of_string s with
  | y1 :: y2 :: y3 :: y4 :: "-"%char :: m1 :: m2 :: "-"%char :: d1 :: d2 :: rest =>
      y ← digits_val [y1; y2; y3; y4];
      m ← digits_val [m1; m2];
      d ← digits_val [d1; d2];
      '(hh, mm, ss, us) ← match rest with
                          | [] => Some (0, 0, 0, 0)
                          | _ :: tm => parse_time tm
                          end;
      if (1 <=? y) && (1 <=? m) && (m <=? 12) && (1 <=? d)
         && (d <=? days_in_month y m) && (hh <? 24) && (mm <? 60) && (ss <? 60)
      then Some (of_fields y m d hh mm ss us)
      else None
  | _ => None
  end.

End Datetime.

Set Warnings "-register-all".

(** ** JSON documents *)

(** A finite double [m * 2^e] is [JFloat m e]. *)
Inductive json : Type :=
| JNull
| JBool (b : bool)
| JInt (n : Z)
| JFloat (m e : Z)
| JStr (s : string)
| JList (l : list json)
| JObj (o : list (string * json)).

(** A text stored in Redis where the code expects JSON: the document it
    denotes, or a text that [json.loads] rejects. *)
Inductive text : Type :=
| JsonText (doc : json)
| NotJson (s : string).

Definition json_dumps (doc : json) : text := JsonText doc.

(** Python dictionaries with string keys, in insertion order *)
Module Dict.

Fixpoint get {A : Type} (k : string) (d : list (string * A)) : option A :=
  match d with
  | [] => None
  | (k', v) :: d' => if String.eqb k k' then Some v else get k d'
  end.

(** [d[k] = v]: in place when the key exists, at the end otherwise *)
Fixpoint set {A : Type} (k : string) (v : A) (d : list (string * A)) : list (string * A) :=
  match d with
  | [] => [(k, v)]
  | (k', v') :: d' => if String.eqb k k' then (k, v) :: d' else (k', v') :: set k v d'
  end.

(** [del d[k]] *)
Fixpoint remove {A : Type} (k : string) (d : list (string * A)) : list (string * A) :=
  match d with
  | [] => []
  | (k', v') :: d' => if String.eqb k k' then d' else (k', v') :: remove k d'
  end.

Definition mem {A : Type} (k : string) (d : list (string * A)) : bool :=
  match get k d with Some _ => true | None => false end.

Definition keys {A : Type} (d : list (string * A)) : list string := map fst d.

End Dict.

(** Python truthiness of a decoded JSON value *)
Definition truthy (v : json) : bool :=
  match v with
  | JNull => false
  | JBool b => b
  | JInt n => negb (n =? 0)
  | JFloat m _ => negb (m =? 0)
  | JStr s => negb (String.eqb s "")
  | JList l => match l with [] => false | _ => true end
  | JObj o => match o with [] => false | _ => true end
  end.

(** ** Enumerations *)

Inductive QueuePriority : Type := LOW | NORMAL | HIGH | URGENT.

Inductive JobStatus : Type :=
  PENDING | QUEUED | PROCESSING | COMPLETED | FAILED | CANCELLED | EXPIRED.

Module QueuePriority_.

Definition value (p : QueuePriority) : Z :=
  match p with LOW => 0 | NORMAL => 1 | HIGH => 2 | URGENT => 3 end.

Definition name (p : QueuePriority) : string :=
  match p with LOW => "LOW" | NORMAL => "NORMAL" | HIGH => "HIGH" | URGENT => "URGENT" end.

(** [str(member)] of a plain [Enum] *)
Definition str (p : QueuePriority) : string := "QueuePriority." +:+ name p.

(** iteration order of the class, [for priority in QueuePriority] *)
Definition members : list QueuePriority := [LOW; NORMAL; HIGH; URGENT].

Definition of_int (n : Z) : option QueuePriority :=
  if n =? 0 then Some LOW else if n =? 1 then Some NORMAL
  else if n =? 2 then Some HIGH else if n =? 3 then Some URGENT else None.

(** the integer a double equals, when it is one *)
Definition float_int (m e : Z) : option Z :=
  if 0 <=? e then Some (m * 2 ^ e)
  else if m mod 2 ^ (- e) =? 0 then Some (m / 2 ^ (- e)) else None.

(** [QueuePriority(v)]: lookup by value, [None] is [ValueError].  Python
    compares by [==], so [True] and [1.0] find the member of value [1]. *)
Definition of_value (v : json) : option QueuePriority :=
  match v with
  | JInt n => of_int n
  | JBool b => of_int (if b then 1 else 0)
  | JFloat m e => n ← float_int m e; of_int n
  | _ => None
  end.

End QueuePriority_.

Module JobStatus_.

Definition value (s : JobStatus) : string :=
  match s with
  | PENDING => "pending" | QUEUED => "queued" | PROCESSING => "processing"
  | COMPLETED => "completed" | FAILED => "failed" | CANCELLED => "cancelled"
  | EXPIRED => "expired"
  end.

Definition name (s : JobStatus) : string :=
  match s with
  | PENDING => "PENDING" | QUEUED => "QUEUED" | PROCESSING => "PROCESSING"
  | COMPLETED => "COMPLETED" | FAILED => "FAILED" | CANCELLED => "CANCELLED"
  | EXPIRED => "EXPIRED"
  end.

Definition str (s : JobStatus) : string := "JobStatus." +:+ name s.

Definition members : list JobStatus :=
  [PENDING; QUEUED; PROCESSING; COMPLETED; FAILED; CANCELLED; EXPIRED].

Definition of_string (t : string) : option JobStatus :=
  List.find (fun s => String.eqb (value s) t) members.

(** [JobStatus(v)]: lookup by value, [None] is [ValueError] *)
Definition of_value (v : json) : option JobStatus :=
  match v with
  | JStr t => of_string t
  | _ => None
  end.

Definition eqb (a b : JobStatus) : bool := String.eqb (value a) (value b).

(** [status in [COMPLETED, FAILED, CANCELLED]] *)
Definition closes (s : JobStatus) : bool :=
  match s with COMPLETED | FAILED | CANCELLED => true | _ => false end.

End JobStatus_.

#[global] Instance QueuePriority_eq_dec : EqDecision QueuePriority.
Proof. solve_decision. Defined.

#[global] Instance JobStatus_eq_dec : EqDecision JobStatus.
Proof. solve_decision. Defined.

(** ** The job record *)

Record QueueJob : Type := mkQueueJob {
  job_id : string;
  user_id : string;
  job_type : string;
  payload : json;
  priority : QueuePriority;
  status : JobStatus;
  created_at : Z;
  scheduled_at : option Z;
  started_at : option Z;
  completed_at : option Z;
  retry_count : Z;
  max_retries : Z;
  timeout_seconds : Z;
  error_message : option string;
  progress : json;
  metadata : json
}.

(** field defaults of the dataclass; [__post_init__] turns a [None] metadata
    into an empty dictionary *)
Definition default_retry_count : Z := 0.
Definition default_max_retries : Z := 3.
Definition default_timeout_seconds : Z := 300.
Definition default_progress : json := JFloat 0 0.
Definition post_init_metadata (m : json) : json :=
  match m with JNull => JObj [] | _ => m end.

Definition opt_json {A : Type} (f : A -> json) (o : option A) : json :=
  match o with Some a => f a | None => JNull end.

(** [json.dumps(asdict(job), default=str)].  [asdict] leaves enum members and
    datetimes as they are; the encoder has no case for them and calls
    [default], which is [str]. *)
Definition dumps_job (j : QueueJob) : text :=
  json_dumps (JObj
    [ ("job_id", JStr (job_id j));
      ("user_id", JStr (user_id j));
      ("job_type", JStr (job_type j));
      ("payload", payload j);
      ("priority", JStr (QueuePriority_.str (priority j)));
      ("status", JStr (JobStatus_.str (status j)));
      ("created_at", JStr (Datetime.str (created_at j)));
      ("scheduled_at", opt_json (fun t => JStr (Datetime.str t)) (scheduled_at j));
      ("started_at", opt_json (fun t => JStr (Datetime.str t)) (started_at j));
      ("completed_at", opt_json (fun t => JStr (Datetime.str t)) (completed_at j));
      ("retry_count", JInt (retry_count j));
      ("max_retries", JInt (max_retries j));
      ("timeout_seconds", JInt (timeout_seconds j));
      ("error_message", opt_json JStr (error_message j));
      ("progress", progress j);
      ("metadata", metadata j) ]).

(** ** Exceptions *)

Inductive exn : Type :=
| JSONDecodeError
| ValueError
| TypeError
| KeyError (k : string).

Inductive outcome (A : Type) : Type :=
| Ok (a : A)
| Raise (e : exn).
Arguments Ok {A} a.
Arguments Raise {A} e.

Definition try_bind {A B : Type} (x : outcome A) (f : A -> outcome B) : outcome B :=
  match x with Ok a => f a | Raise e => Raise e end.

Notation "'let?' x := c1 'in' c2" := (try_bind c1 (fun x => c2))
  (at level 10, x name, c1 at level 100, c2 at level 200).

Definition or_raise {A : Type} (e : exn) (o : option A) : outcome A :=
  match o with Some a => Ok a | None => Raise e end.

(** ** Reading a job document back *)

Module Parse.

(** [data[k]] *)
Definition item (k : string) (data : list (string * json)) : outcome json :=
  or_raise (KeyError k) (Dict.get k data).

(** [datetime.fromisoformat(v)] *)
Definition datetime_of (v : json) : outcome Z :=
  match v with
  | JStr s => or_raise ValueError (Datetime.fromisoformat s)
  | _ => Raise TypeError
  end.

(** [if data[k]: data[k] = datetime.fromisoformat(data[k])] *)
Definition convert_optional (k : string) (data : list (string * json)) : outcome (json + Z) :=
  let? v := item k data in
  if truthy v then let? t := datetime_of v in Ok (inr t) else Ok (inl v).

(** The dataclass does not check the types of its fields.  The record of
    this model keeps the annotated types, and a field that holds a value of
    another type makes the document unreadable here ([TypeError]). *)
Definition as_str (v : json) : outcome string :=
  match v with JStr s => Ok s | _ => Raise TypeError end.

Definition as_int (v : json) : outcome Z :=
  match v with JInt n => Ok n | _ => Raise TypeError end.

Definition as_opt_str (v : json) : outcome (option string) :=
  match v with JNull => Ok None | JStr s => Ok (Some s) | _ => Raise TypeError end.

Definition as_opt_datetime (v : json + Z) : outcome (option Z) :=
  match v with
  | inr t => Ok (Some t)
  | inl JNull => Ok None
  | inl _ => Raise TypeError
  end.

(** a field without default is required by the constructor call *)
Definition required (k : string) (data : list (string * json)) : outcome json :=
  or_raise TypeError (Dict.get k data).

Definition with_default (k : string) (d : json) (data : list (string * json)) : json :=
  match Dict.get k data with Some v => v | None => d end.

Definition field_names : list string :=
  [ "job_id"; "user_id"; "job_type"; "payload"; "priority"; "status";
    "created_at"; "scheduled_at"; "started_at"; "completed_at"; "retry_count";
    "max_retries"; "timeout_seconds"; "error_message"; "progress"; "metadata" ]%string.

(** an unexpected keyword argument is a [TypeError] *)
Definition known_keys (data : list (string * json)) : bool :=
  forallb (fun k => existsb (String.eqb k) field_names) (Dict.keys data).

(** the body of the [try] block of [_get_job_data], after [json.loads] *)
Definition job_of_json (doc : json) : outcome QueueJob :=
  match doc with
  | JObj data =>
      let? created_v := item "created_at" data in
      let? created := datetime_of created_v in
      let? scheduled := convert_optional "scheduled_at" data in
      let? started := convert_optional "started_at" data in
      let? completed := convert_optional "completed_at" data in
      let? priority_v := item "priority" data in
      let? prio := or_raise ValueError (QueuePriority_.of_value priority_v) in
      let? status_v := item "status" data in
      let? st := or_raise ValueError (JobStatus_.of_value status_v) in
      if negb (known_keys data) then Raise TypeError else
      let? jid_v := required "job_id" data in
      let? uid_v := required "user_id" data in
      let? jty_v := required "job_type" data in
      let? pay := required "payload" data in
      let? jid := as_str jid_v in
      let? uid := as_str uid_v in
      let? jty := as_str jty_v in
      let? scheduled' := as_opt_datetime scheduled in
      let? started' := as_opt_datetime started in
      let? completed' := as_opt_datetime completed in
      let? rc := as_int (with_default "retry_count" (JInt default_retry_count) data) in
      let? mr := as_int (with_default "max_retries" (JInt default_max_retries) data) in
      let? ts := as_int (with_default "timeout_seconds" (JInt default_timeout_seconds) data) in
      let? em := as_opt_str (with_default "error_message" JNull data) in
      Ok {| job_id := jid; user_id := uid; job_type := jty; payload := pay;
            priority := prio; status := st;
            created_at := created; scheduled_at := scheduled';
            started_at := started'; completed_at := completed';
            retry_count := rc; max_retries := mr; timeout_seconds := ts;
            error_message := em;
            progress := with_default "progress" default_progress data;
            metadata := post_init_metadata (with_default "metadata" JNull data) |}
  | _ => Raise TypeError
  end.

(** [json.loads(text)] *)
Definition json_loads (t : text) : outcome json :=
  match t with
  | JsonText doc => Ok doc
  | NotJson _ => Raise JSONDecodeError
  end.

(** [if job_data:] on the text read from the hash *)
Definition nonempty (t : text) : bool :=
  match t with
  | JsonText _ => true
  | NotJson s => negb (String.eqb s "")
  end.

End Parse.

(** ** Redis *)

(** The hash kept under [job:{id}]; the code touches these three fields. *)
Record JobHash : Type := mkJobHash {
  h_data : option text;
  h_user_id : option string;
  h_status : option string
}.

Record Redis : Type := mkRedis {
  hashes : gmap string JobHash;             (* job:{id} *)
  counters : gmap string Z;                 (* rate_limit:{window}:{user}:{stamp} *)
  results : gmap string text;               (* job:{id}:result *)
  lists : gmap string (list string);        (* queue:{priority}, head first *)
  dead_letters : list text;                 (* dead_letter_queue, head first *)
  zsets : gmap string (gmap string Z);      (* queue:{priority}:delayed *)
  sets : gmap string (gset string)          (* user:{id}:jobs *)
}.

(** Glob patterns of the [KEYS] command: [*], [?], classes and [\]. *)
Module Glob.

Inductive mode : Type :=
| Top
| InClass (negated matched : bool).

Definition in_range (lo hi c : ascii) : bool :=
  let l := nat_of_ascii lo in
  let h := nat_of_ascii hi in
  let x := nat_of_ascii c in
  ((Nat.min l h <=? x) && (x <=? Nat.max l h))%nat.

Fixpoint go (p : list ascii) (m : mode) (s : list ascii) {struct p} : bool :=
  match m with
  | Top =>
      match p with
      | [] => match s with [] => true | _ => false end
      | "*"%char :: p' =>
          (fix star (s : list ascii) : bool :=
             go p' Top s || match s with [] => false | _ :: s' => star s' end) s
      | "?"%char :: p' =>
          match s with [] => false | _ :: s' => go p' Top s' end
      | "["%char :: "^"%char :: p' =>
          match s with [] => false | _ => go p' (InClass true false) s end
      | "["%char :: p' =>
          match s with [] => false | _ => go p' (InClass false false) s end
      | "\"%char :: c :: p' =>
          match s with [] => false | x :: s' => Ascii.eqb c x && go p' Top s' end
      | c :: p' =>
          match s with [] => false | x :: s' => Ascii.eqb c x && go p' Top s' end
      end
  | InClass negated matched =>
      match s with
      | [] => false
      | x :: s' =>
          match p with
          | [] => xorb negated matched && match s' with [] => true | _ => false end
          | "\"%char :: c :: p' => go p' (InClass negated (matched || Ascii.eqb c x)) s
          | "]"%char :: p' => xorb negated matched && go p' Top s'
          | lo :: "-"%char :: hi :: p' =>
              go p' (InClass negated (matched || in_range lo hi x)) s
          | c :: p' => go p' (InClass negated (matched || Ascii.eqb c x)) s
          end
      end
  end.

Definition matches (pattern key : string) : bool :=
  go (list_ascii_of_string pattern) Top (list_ascii_of_string key).

End Glob.

Module R.

Definition empty : Redis :=
  {| hashes := ∅; counters := ∅; results := ∅; lists := ∅; dead_letters := [];
     zsets := ∅; sets := ∅ |}.

Definition set_hashes (f : gmap string JobHash -> gmap string JobHash) (r : Redis) : Redis :=
  {| hashes := f (hashes r); counters := counters r; results := results r;
     lists := lists r; dead_letters := dead_letters r; zsets := zsets r; sets := sets r |}.

Definition set_counters (f : gmap string Z -> gmap string Z) (r : Redis) : Redis :=
  {| hashes := hashes r; counters := f (counters r); results := results r;
     lists := lists r; dead_letters := dead_letters r; zsets := zsets r; sets := sets r |}.

Definition set_results (f : gmap string text -> gmap string text) (r : Redis) : Redis :=
  {| hashes := hashes r; counters := counters r; results := f (results r);
     lists := lists r; dead_letters := dead_letters r; zsets := zsets r; sets := sets r |}.

Definition set_lists (f : gmap string (list string) -> gmap string (list string))
    (r : Redis) : Redis :=
  {| hashes := hashes r; counters := counters r; results := results r;
     lists := f (lists r); dead_letters := dead_letters r; zsets := zsets r; sets := sets r |}.

Definition set_dead_letters (f : list text -> list text) (r : Redis) : Redis :=
  {| hashes := hashes r; counters := counters r; results := results r;
     lists := lists r; dead_letters := f (dead_letters r); zsets := zsets r; sets := sets r |}.

Definition set_zsets (f : gmap string (gmap string Z) -> gmap string (gmap string Z))
    (r : Redis) : Redis :=
  {| hashes := hashes r; counters := counters r; results := results r;
     lists := lists r; dead_letters := dead_letters r; zsets := f (zsets r); sets := sets r |}.

Definition set_sets (f : gmap string (gset string) -> gmap string (gset string))
    (r : Redis) : Redis :=
  {| hashes := hashes r; counters := counters r; results := results r;
     lists := lists r; dead_letters := dead_letters r; zsets := zsets r; sets := f (sets r) |}.

(** a key whose collection becomes empty is removed *)
Definition store_list {A : Type} (key : string) (l : list A) (m : gmap string (list A))
    : gmap string (list A) :=
  match l with [] => delete key m | _ => <[key := l]> m end.

Definition list_at {A : Type} (key : string) (m : gmap string (list A)) : list A :=
  default [] (m !! key).

(** *** Strings *)

Definition get (key : string) (r : Redis) : option Z := counters r !! key.

Definition incr (key : string) (r : Redis) : Redis :=
  set_counters (fun m => <[key := default 0 (m !! key) + 1]> m) r.

Definition set_result (key : string) (v : text) (r : Redis) : Redis :=
  set_results (fun m => <[key := v]> m) r.

(** *** Hashes *)

Definition hget_data (key : string) (r : Redis) : option text :=
  h ← hashes r !! key; h_data h.

Definition hget_status (key : string) (r : Redis) : option string :=
  h ← hashes r !! key; h_status h.

Definition hget_user_id (key : string) (r : Redis) : option string :=
  h ← hashes r !! key; h_user_id h.

Definition no_hash : JobHash := {| h_data := None; h_user_id := None; h_status := None |}.

(** [hset(key, mapping={data, user_id, status})] *)
Definition hset_job (key : string) (data : text) (uid st : string) (r : Redis) : Redis :=
  set_hashes (fun m =>
    <[key := {| h_data := Some data; h_user_id := Some uid; h_status := Some st |}]> m) r.

(** [hset(key, mapping={data, status})] *)
Definition hset_status (key : string) (data : text) (st : string) (r : Redis) : Redis :=
  set_hashes (fun m =>
    <[key := {| h_data := Some data;
                h_user_id := h_user_id (default no_hash (m !! key));
                h_status := Some st |}]> m) r.

(** *** Lists *)

Definition llen (key : string) (r : Redis) : Z := Z.of_nat (length (list_at key (lists r))).

Definition lpush (key value : string) (r : Redis) : Redis :=
  set_lists (fun m => <[key := value :: list_at key m]> m) r.

(** [BRPOP] of one key: the tail element; on an empty list the wait times
    out, no other client being there to push *)
Definition brpop (key : string) (timeout : Z) (r : Redis) : Redis * option string :=
  let l := list_at key (lists r) in
  match last l with
  | Some v => (set_lists (store_list key (removelast l)) r, Some v)
  | None => (r, None)
  end.

Definition dlq_key : string := "dead_letter_queue".

Definition dlq_lpush (entry : text) (r : Redis) : Redis :=
  set_dead_letters (fun l => entry :: l) r.

(** [ltrim(key, 0, stop)] *)
Definition dlq_ltrim_from_head (stop : nat) (r : Redis) : Redis :=
  set_dead_letters (take (S stop)) r.

(** *** Sorted sets: a score for each member; ranges are read by ascending
    score, members of one score in byte order *)

Definition zset_at (key : string) (m : gmap string (gmap string Z)) : gmap string Z :=
  default ∅ (m !! key).

Definition store_zset (key : string) (z : gmap string Z) (m : gmap string (gmap string Z))
    : gmap string (gmap string Z) :=
  if decide (z = ∅) then delete key m else <[key := z]> m.

Definition zbefore (a b : string * Z) : bool :=
  (snd a <? snd b) || ((snd a =? snd b) && String.ltb (fst a) (fst b)).

Fixpoint zinsert (e : string * Z) (l : list (string * Z)) : list (string * Z) :=
  match l with
  | [] => [e]
  | e' :: l' => if zbefore e e' then e :: l else e' :: zinsert e l'
  end.

Definition zsorted (z : gmap string Z) : list (string * Z) :=
  foldr zinsert [] (map_to_list z).

Definition zadd (key member : string) (score : Z) (r : Redis) : Redis :=
  set_zsets (fun m => <[key := <[member := score]> (zset_at key m)]> m) r.

Definition zrem (key member : string) (r : Redis) : Redis :=
  set_zsets (fun m => store_zset key (delete member (zset_at key m)) m) r.

Definition zrangebyscore (key : string) (lo hi : Z) (r : Redis) : list string :=
  map fst (List.filter (fun e => (lo <=? snd e) && (snd e <=? hi))
                       (zsorted (zset_at key (zsets r)))).

Definition zcard (key : string) (r : Redis) : Z :=
  Z.of_nat (size (zset_at key (zsets r))).

Definition zscore (key member : string) (r : Redis) : option Z :=
  zset_at key (zsets r) !! member.

(** *** Sets *)

Definition sadd (key member : string) (r : Redis) : Redis :=
  set_sets (fun m => <[key := {[member]} ∪ default ∅ (m !! key)]> m) r.

Definition srem (key member : string) (r : Redis) : Redis :=
  set_sets (fun m =>
    match m !! key with
    | Some s => if decide (s ∖ {[member]} = ∅) then delete key m
                else <[key := s ∖ {[member]}]> m
    | None => m
    end) r.

(** *** The key space *)

Definition all_keys (r : Redis) : list string :=
  elements (dom (hashes r)) ++ elements (dom (counters r))
  ++ elements (dom (results r)) ++ elements (dom (lists r))
  ++ (match dead_letters r with [] => [] | _ => [dlq_key] end)
  ++ elements (dom (zsets r)) ++ elements (dom (sets r)).

(** [KEYS pattern] *)
Definition keys (pattern : string) (r : Redis) : list string :=
  List.filter (Glob.matches pattern) (all_keys r).

End R.

(** ** The manager's state and its operations *)

Record Stats : Type := mkStats {
  jobs_queued : Z;
  jobs_processed : Z;
  jobs_failed : Z;
  queue_overflows : Z
}.

Record Limits : Type := mkLimits {
  requests_per_minute : Z;
  requests_per_hour : Z;
  requests_per_day : Z;
  concurrent_jobs : Z
}.

Definition default_limits : Limits :=
  {| requests_per_minute := 10; requests_per_hour := 100;
     requests_per_day := 500; concurrent_jobs := 3 |}.

(** an [EnhancedQueueManager] together with the Redis server it talks to *)
Record World : Type := mkWorld {
  redis : Redis;
  stats : Stats;
  max_queue_size : Z;
  limits : Limits
}.

Definition new_stats : Stats :=
  {| jobs_queued := 0; jobs_processed := 0; jobs_failed := 0; queue_overflows := 0 |}.

(** [EnhancedQueueManager(redis_client, max_queue_size)] *)
Definition new_manager (r : Redis) (size : Z) : World :=
  {| redis := r; stats := new_stats; max_queue_size := size; limits := default_limits |}.

Definition default_max_queue_size : Z := 1000.

(** what a call reads from its environment *)
Record Env : Type := mkEnv {
  now : Z;          (* datetime.now() *)
  time_time : Z;    (* time.time(), in microseconds *)
  uuid4 : string    (* str(uuid.uuid4()) *)
}.

Definition M (A : Type) : Type := Env -> World -> World * outcome A.

Definition ret {A : Type} (a : A) : M A := fun _ w => (w, Ok a).

Definition bind {A B : Type} (c : M A) (k : A -> M B) : M B :=
  fun env w =>
    match c env w with
    | (w', Ok a) => k a env w'
    | (w', Raise e) => (w', Raise e)
    end.

Notation "'let*' x := c1 'in' c2" := (bind c1 (fun x => c2))
  (at level 10, x name, c1 at level 100, c2 at level 200).
Notation "'let*' ' pat := c1 'in' c2" :=
  (bind c1 (fun x => match x with pat => c2 end))
  (at level 10, pat pattern, c1 at level 100, c2 at level 200).
Notation "c1 ;; c2" := (bind c1 (fun _ => c2))
  (at level 100, c2 at level 200, right associativity).

Definition raise {A : Type} (e : exn) : M A := fun _ w => (w, Raise e).

Definition ask {A : Type} (f : Env -> A) : M A := fun env w => (w, Ok (f env)).

Definition self {A : Type} (f : World -> A) : M A := fun _ w => (w, Ok (f w)).

Definition redis_read {A : Type} (f : Redis -> A) : M A := fun _ w => (w, Ok (f (redis w))).

Definition set_redis (r : Redis) (w : World) : World :=
  {| redis := r; stats := stats w; max_queue_size := max_queue_size w; limits := limits w |}.

Definition set_stats (s : Stats) (w : World) : World :=
  {| redis := redis w; stats := s; max_queue_size := max_queue_size w; limits := limits w |}.

Definition redis_exec (f : Redis -> Redis) : M unit :=
  fun _ w => (set_redis (f (redis w)) w, Ok tt).

Definition redis_call {A : Type} (f : Redis -> Redis * A) : M A :=
  fun _ w => let '(r, a) := f (redis w) in (set_redis r w, Ok a).

Definition stats_exec (f : Stats -> Stats) : M unit :=
  fun _ w => (set_stats (f (stats w)) w, Ok tt).

Fixpoint for_each {A : Type} (l : list A) (body : A -> M unit) : M unit :=
  match l with
  | [] => ret tt
  | a :: l' => body a;; for_each l' body
  end.

(** *** RateLimiter *)

Definition minute_key (uid : string) (t : Z) : string :=
  "rate_limit:minute:" +:+ uid +:+ ":" +:+ Datetime.strftime_minute t.
Definition hour_key (uid : string) (t : Z) : string :=
  "rate_limit:hour:" +:+ uid +:+ ":" +:+ Datetime.strftime_hour t.
Definition day_key (uid : string) (t : Z) : string :=
  "rate_limit:day:" +:+ uid +:+ ":" +:+ Datetime.strftime_day t.

Definition concurrent_pattern (uid : string) : string :=
  "job:*:user:" +:+ uid +:+ ":status:processing".

Definition get_concurrent_jobs (uid : string) : M Z :=
  let* keys := redis_read (R.keys (concurrent_pattern uid)) in
  ret (Z.of_nat (length keys)).

(** [count and int(count) >= limit] *)
Definition reached (count : option Z) (limit : Z) : bool :=
  match count with Some c => limit <=? c | None => false end.

Definition minute_reason : string := "Rate limit exceeded: too many requests per minute".
Definition hour_reason : string := "Rate limit exceeded: too many requests per hour".
Definition day_reason : string := "Rate limit exceeded: too many requests per day".
Definition concurrent_reason : string := "Rate limit exceeded: too many concurrent jobs".

Definition check_rate_limit (uid : string) : M (bool * string) :=
  let* t := ask now in
  let* lim := self limits in
  let* minute_count := redis_read (R.get (minute_key uid t)) in
  if reached minute_count (requests_per_minute lim) then ret (false, minute_reason) else
  let* hour_count := redis_read (R.get (hour_key uid t)) in
  if reached hour_count (requests_per_hour lim) then ret (false, hour_reason) else
  let* day_count := redis_read (R.get (day_key uid t)) in
  if reached day_count (requests_per_day lim) then ret (false, day_reason) else
  let* concurrent := get_concurrent_jobs uid in
  if concurrent_jobs lim <=? concurrent then ret (false, concurrent_reason) else
  ret (true, "OK"%string).

Definition increment_rate_limit (uid : string) : M unit :=
  let* t := ask now in
  redis_exec (R.incr (minute_key uid t));;
  redis_exec (R.incr (hour_key uid t));;
  redis_exec (R.incr (day_key uid t)).

(** *** DeadLetterQueue *)

Definition dlq_entry (job : QueueJob) (error : string) (t : Z) : json :=
  JObj [ ("job_id", JStr (job_id job));
         ("user_id", JStr (user_id job));
         ("job_type", JStr (job_type job));
         ("failed_at", JStr (Datetime.isoformat t));
         ("error", JStr error);
         ("retry_count", JInt (retry_count job));
         ("original_payload", payload job) ].

Definition add_failed_job (job : QueueJob) (error : string) : M unit :=
  let* t := ask now in
  redis_exec (R.dlq_lpush (json_dumps (dlq_entry job error t)));;
  redis_exec (R.dlq_ltrim_from_head 999).

(** [get_failed_jobs(user_id, limit)]: the entries among the first [limit]
    that parse and belong to the user, when one is given *)
Definition entry_user_is (uid : option string) (doc : json) : bool :=
  match uid, doc with
  | None, _ => true
  | Some u, JObj o =>
      match Dict.get "user_id" o with
      | Some (JStr u') => String.eqb u u'
      | _ => false
      end
  | Some _, _ => false
  end.

Definition get_failed_jobs (uid : option string) (limit : nat) : M (list json) :=
  let* entries := redis_read (fun r => take limit (dead_letters r)) in
  ret (omap (fun e => match e with
                      | JsonText doc => if entry_user_is uid doc then Some doc else None
                      | NotJson _ => None
                      end) entries).

(** *** EnhancedQueueManager *)

Definition queue_keys (p : QueuePriority) : string :=
  match p with
  | URGENT => "queue:urgent"
  | HIGH => "queue:high"
  | NORMAL => "queue:normal"
  | LOW => "queue:low"
  end.

(** iteration order of the [queue_keys] dictionary *)
Definition queue_keys_items : list QueuePriority := [URGENT; HIGH; NORMAL; LOW].

Definition delayed_key (p : QueuePriority) : string := queue_keys p +:+ ":delayed".

Definition job_key (jid : string) : string := "job:" +:+ jid.
Definition result_key (jid : string) : string := "job:" +:+ jid +:+ ":result".
Definition user_jobs_key (uid : string) : string := "user:" +:+ uid +:+ ":jobs".

Definition total_of (r : Redis) : Z :=
  fold_left (fun total p => total + R.llen (queue_keys p) r + R.zcard (delayed_key p) r)
            queue_keys_items 0.

Definition _get_total_queue_size : M Z := redis_read total_of.

Definition queue_full_reason : string := "Queue is full, please try again later".

Definition enqueue_job (uid jtype : string) (pay : json) (prio : QueuePriority)
    (delay_seconds : Z) : M (bool * string * option string) :=
  let* '(allowed, reason) := check_rate_limit uid in
  if negb allowed then ret (false, reason, None) else
  let* total_queue_size := _get_total_queue_size in
  let* size := self max_queue_size in
  if size <=? total_queue_size then
    stats_exec (fun s =>
      {| jobs_queued := jobs_queued s; jobs_processed := jobs_processed s;
         jobs_failed := jobs_failed s; queue_overflows := queue_overflows s + 1 |});;
    ret (false, queue_full_reason, None)
  else
  let* jid := ask uuid4 in
  let* t := ask now in
  let scheduled := if 0 <? delay_seconds then Some (Datetime.add_seconds t delay_seconds)
                   else None in
  let job := {| job_id := jid; user_id := uid; job_type := jtype; payload := pay;
                priority := prio; status := QUEUED; created_at := t;
                scheduled_at := scheduled; started_at := None; completed_at := None;
                retry_count := default_retry_count; max_retries := default_max_retries;
                timeout_seconds := default_timeout_seconds; error_message := None;
                progress := default_progress; metadata := post_init_metadata JNull |} in
  redis_exec (R.hset_job (job_key jid) (dumps_job job) uid (JobStatus_.value (status job)));;
  (if 0 <? delay_seconds then
         let* ts := ask time_time in
         redis_exec (R.zadd (delayed_key prio) jid (ts + delay_seconds * Datetime.us_per_second))
       else redis_exec (R.lpush (queue_keys prio) jid));;
  increment_rate_limit uid;;
  stats_exec (fun s =>
    {| jobs_queued := jobs_queued s + 1; jobs_processed := jobs_processed s;
       jobs_failed := jobs_failed s; queue_overflows := queue_overflows s |});;
  redis_exec (R.sadd (user_jobs_key uid) jid);;
  ret (true, "Job queued successfully"%string, Some jid).

Definition _process_delayed_jobs : M unit :=
  let* ts := ask time_time in
  for_each QueuePriority_.members (fun p =>
    let* ready_jobs := redis_read (R.zrangebyscore (delayed_key p) 0 ts) in
    for_each ready_jobs (fun jid =>
      redis_exec (R.lpush (queue_keys p) jid);;
      redis_exec (R.zrem (delayed_key p) jid))).

Definition _get_job_data (jid : string) : M (option QueueJob) :=
  let* job_data := redis_read (R.hget_data (job_key jid)) in
  match job_data with
  | Some t =>
      if Parse.nonempty t then
        match try_bind (Parse.json_loads t) Parse.job_of_json with
        | Ok job => ret (Some job)
        | Raise (KeyError k) => raise (KeyError k)
        | Raise _ => ret None
        end
      else ret None
  | None => ret None
  end.

Definition nonempty_error (error : option string) : option string :=
  match error with
  | Some e => if String.eqb e "" then None else Some e
  | None => None
  end.

Definition _update_job_status (jid : string) (st : JobStatus) (error : option string)
    : M unit :=
  let* job_data := _get_job_data jid in
  match job_data with
  | Some job =>
      let* t := ask now in
      let job' :=
        {| job_id := job_id job; user_id := user_id job; job_type := job_type job;
           payload := payload job; priority := priority job;
           status := st;
           created_at := created_at job; scheduled_at := scheduled_at job;
           started_at := if JobStatus_.eqb st PROCESSING then Some t else started_at job;
           completed_at := if JobStatus_.closes st then Some t else completed_at job;
           retry_count := retry_count job; max_retries := max_retries job;
           timeout_seconds := timeout_seconds job;
           error_message := match nonempty_error error with
                            | Some e => Some e
                            | None => error_message job
                            end;
           progress := progress job; metadata := metadata job |} in
      redis_exec (R.hset_status (job_key jid) (dumps_job job') (JobStatus_.value st));;
      if JobStatus_.closes st
      then redis_exec (R.srem (user_jobs_key (user_id job')) jid)
      else ret tt
  | None => ret tt
  end.

Fixpoint dequeue_from (ps : list QueuePriority) (timeout : Z) : M (option QueueJob) :=
  match ps with
  | [] => ret None
  | p :: ps' =>
      let* result := redis_call (R.brpop (queue_keys p) timeout) in
      match result with
      | Some jid =>
          let* job_data := _get_job_data jid in
          match job_data with
          | Some job =>
              _update_job_status jid PROCESSING None;;
              ret (Some job)
          | None => dequeue_from ps' timeout
          end
      | None => dequeue_from ps' timeout
      end
  end.

Definition dequeue_job (timeout : Z) : M (option QueueJob) :=
  _process_delayed_jobs;;
  dequeue_from [URGENT; HIGH; NORMAL; LOW] timeout.

Definition complete_job (jid : string) (result : json) : M unit :=
  _update_job_status jid COMPLETED None;;
  stats_exec (fun s =>
    {| jobs_queued := jobs_queued s; jobs_processed := jobs_processed s + 1;
       jobs_failed := jobs_failed s; queue_overflows := queue_overflows s |});;
  redis_exec (R.set_result (result_key jid) (json_dumps result)).

Definition with_retry_count (job : QueueJob) (n : Z) : QueueJob :=
  {| job_id := job_id job; user_id := user_id job; job_type := job_type job;
     payload := payload job; priority := priority job; status := status job;
     created_at := created_at job; scheduled_at := scheduled_at job;
     started_at := started_at job; completed_at := completed_at job;
     retry_count := n; max_retries := max_retries job;
     timeout_seconds := timeout_seconds job; error_message := error_message job;
     progress := progress job; metadata := metadata job |}.

(** [min(300, 10 * (2 ** retry_count))] *)
Definition backoff (count : Z) : Z := Z.min 300 (10 * 2 ^ count).

Definition final_failure (jid : string) (job : QueueJob) (error : string) : M unit :=
  _update_job_status jid FAILED (Some error);;
  add_failed_job job error;;
  stats_exec (fun s =>
    {| jobs_queued := jobs_queued s; jobs_processed := jobs_processed s;
       jobs_failed := jobs_failed s + 1; queue_overflows := queue_overflows s |}).

Definition fail_job (jid : string) (error : string) (retry : bool) : M unit :=
  let* job_data := _get_job_data jid in
  match job_data with
  | None => ret tt
  | Some job0 =>
      let job := with_retry_count job0 (retry_count job0 + 1) in
      if retry && (retry_count job <=? max_retries job) then
        let delay := backoff (retry_count job) in
        let* '(success, reason, new_job_id) := enqueue_job (user_id job) (job_type job) (payload job) (priority job) delay in
        if (success : bool) then
          _update_job_status jid CANCELLED (Some ("Retrying: " +:+ error))
        else final_failure jid job error
      else final_failure jid job error
  end.

(** [get_queue_stats()["total_queued"]] and [["dlq_size"]] *)
Definition total_queued : M Z := redis_read total_of.
Definition dlq_size : M Z := redis_read (fun r => Z.of_nat (length (dead_letters r))).

(** ** EnhancedModelCache *)

Module ModelCache.

(** what a call reads from the device and the clock *)
Record Gpu : Type := mkGpu {
  cuda_available : bool;        (* torch.cuda.is_available() *)
  usage_above_threshold : bool; (* usage_percentage > memory_threshold * 100 *)
  allocated_before : Z;         (* torch.cuda.memory_allocated() on entry *)
  allocated_after : Z;          (* the same once the model is in the cache *)
  clock : Z                     (* datetime.now() *)
}.

(** [GPUMemoryMonitor.check_memory_pressure] *)
Definition check_memory_pressure (g : Gpu) : bool :=
  if negb (cuda_available g) then false else usage_above_threshold g.

Section Cache.

Context {Model : Type}.

Record EnhancedModelCache : Type := mkCache {
  cache : list (string * Model);
  usage_times : list (string * Z);
  memory_sizes : list (string * Z);
  max_models : Z
}.

(** [EnhancedModelCache(max_models)] *)
Definition new_cache (n : Z) : EnhancedModelCache :=
  {| cache := []; usage_times := []; memory_sizes := []; max_models := n |}.

Definition get (model_id : string) (t : Z) (c : EnhancedModelCache)
    : EnhancedModelCache * option Model :=
  match Dict.get model_id (cache c) with
  | Some m =>
      ({| cache := cache c; usage_times := Dict.set model_id t (usage_times c);
          memory_sizes := memory_sizes c; max_models := max_models c |}, Some m)
  | None => (c, None)
  end.

(** [del d[k]], a [KeyError] when the key is absent *)
Definition del {A : Type} (k : string) (d : list (string * A)) : outcome (list (string * A)) :=
  if Dict.mem k d then Ok (Dict.remove k d) else Raise (KeyError k).

Definition _evict (model_id : string) (c : EnhancedModelCache) : outcome EnhancedModelCache :=
  if Dict.mem model_id (cache c) then
    let? cache' := del model_id (cache c) in
    let? usage' := del model_id (usage_times c) in
    Ok {| cache := cache'; usage_times := usage';
          memory_sizes := if Dict.mem model_id (memory_sizes c)
                          then Dict.remove model_id (memory_sizes c)
                          else memory_sizes c;
          max_models := max_models c |}
  else Ok c.

(** [min(d.keys(), key=lambda k: d[k])]: the first key of least value *)
Fixpoint min_from (best : string * Z) (d : list (string * Z)) : string :=
  match d with
  | [] => fst best
  | e :: d' => min_from (if snd e <? snd best then e else best) d'
  end.

Definition min_key (d : list (string * Z)) : outcome string :=
  match d with
  | [] => Raise ValueError
  | e :: d' => Ok (min_from e d')
  end.

(** [max(d.keys(), key=lambda k: d[k])]: the first key of greatest value *)
Fixpoint max_from (best : string * Z) (d : list (string * Z)) : string :=
  match d with
  | [] => fst best
  | e :: d' => max_from (if snd best <? snd e then e else best) d'
  end.

Definition max_key (d : list (string * Z)) : outcome string :=
  match d with
  | [] => Raise ValueError
  | e :: d' => Ok (max_from e d')
  end.

Fixpoint evict_each (ids : list string) (c : EnhancedModelCache) : outcome EnhancedModelCache :=
  match ids with
  | [] => Ok c
  | i :: ids' => let? c' := _evict i c in evict_each ids' c'
  end.

Definition _evict_all_except_newest (c : EnhancedModelCache) : outcome EnhancedModelCache :=
  match cache c with
  | [] => Ok c
  | _ =>
      let? newest_id := max_key (usage_times c) in
      evict_each (List.filter (fun mid => negb (String.eqb mid newest_id)) (Dict.keys (cache c))) c
  end.

(** [while len(self.cache) >= self.max_models]: one unit of fuel per turn;
    [None] when the fuel runs out *)
Fixpoint lru_loop (fuel : nat) (c : EnhancedModelCache) : option (outcome EnhancedModelCache) :=
  if max_models c <=? Z.of_nat (length (cache c)) then
    match fuel with
    | O => None
    | S fuel' =>
        match try_bind (min_key (usage_times c)) (fun oldest_id => _evict oldest_id c) with
        | Ok c' => lru_loop fuel' c'
        | Raise e => Some (Raise e)
        end
    end
  else Some (Ok c).

(** A turn that evicts shortens the cache, and a turn that does not leaves
    the state as it was: the loop runs at most [length cache] evicting turns,
    and then stops, raises, or never ends. *)
Definition _ensure_cache_space (g : Gpu) (c : EnhancedModelCache)
    : option (outcome EnhancedModelCache) :=
  if check_memory_pressure g then Some (_evict_all_except_newest c)
  else lru_loop (S (length (cache c))) c.

Definition put (model_id : string) (model : Model) (g : Gpu) (c : EnhancedModelCache)
    : option (outcome EnhancedModelCache) :=
  match _ensure_cache_space g c with
  | Some (Ok c') =>
      Some (Ok {| cache := Dict.set model_id model (cache c');
                  usage_times := Dict.set model_id (clock g) (usage_times c');
                  memory_sizes :=
                    if cuda_available g
                    then Dict.set model_id (allocated_after g - allocated_before g)
                                  (memory_sizes c')
                    else memory_sizes c';
                  max_models := max_models c' |})
  | Some (Raise e) => Some (Raise e)
  | None => None
  end.

Definition clear (c : EnhancedModelCache) : EnhancedModelCache :=
  {| cache := []; usage_times := []; memory_sizes := []; max_models := max_models c |}.

End Cache.

Arguments EnhancedModelCache : clear implicits.

End ModelCache.

(** * Specification functions and scenario data *)

(** the verdict of [check_rate_limit], as a function of what it reads *)
Definition rate_verdict (uid : string) (t : Z) (lim : Limits) (r : Redis) : bool * string :=
  if reached (R.get (minute_key uid t) r) (requests_per_minute lim) then (false, minute_reason)
  else if reached (R.get (hour_key uid t) r) (requests_per_hour lim) then (false, hour_reason)
  else if reached (R.get (day_key uid t) r) (requests_per_day lim) then (false, day_reason)
  else if concurrent_jobs lim <=? Z.of_nat (length (R.keys (concurrent_pattern uid) r))
       then (false, concurrent_reason)
  else (true, "OK"%string).

Definition count_overflow (s : Stats) : Stats :=
  {| jobs_queued := jobs_queued s; jobs_processed := jobs_processed s;
     jobs_failed := jobs_failed s; queue_overflows := queue_overflows s + 1 |}.

Definition count_queued (s : Stats) : Stats :=
  {| jobs_queued := jobs_queued s + 1; jobs_processed := jobs_processed s;
     jobs_failed := jobs_failed s; queue_overflows := queue_overflows s |}.

Definition new_job (uid jtype : string) (pay : json) (prio : QueuePriority)
    (delay_seconds : Z) (env : Env) : QueueJob :=
  {| job_id := uuid4 env; user_id := uid; job_type := jtype; payload := pay;
     priority := prio; status := QUEUED; created_at := now env;
     scheduled_at := if 0 <? delay_seconds
                     then Some (Datetime.add_seconds (now env) delay_seconds) else None;
     started_at := None; completed_at := None;
     retry_count := default_retry_count; max_retries := default_max_retries;
     timeout_seconds := default_timeout_seconds; error_message := None;
     progress := default_progress; metadata := post_init_metadata JNull |}.

Definition due_time (env : Env) (delay_seconds : Z) : Z :=
  time_time env + delay_seconds * Datetime.us_per_second.

(** the store after an admitted [enqueue_job] *)
Definition admitted (uid jtype : string) (pay : json) (prio : QueuePriority)
    (delay_seconds : Z) (env : Env) (r : Redis) : Redis :=
  let jid := uuid4 env in
  let r1 := R.hset_job (job_key jid) (dumps_job (new_job uid jtype pay prio delay_seconds env))
                       uid "queued" r in
  let r2 := if 0 <? delay_seconds
            then R.zadd (delayed_key prio) jid (due_time env delay_seconds) r1
            else R.lpush (queue_keys prio) jid r1 in
  R.sadd (user_jobs_key uid) jid
    (R.incr (day_key uid (now env)) (R.incr (hour_key uid (now env))
       (R.incr (minute_key uid (now env)) r2))).

Definition enqueue_result (uid jtype : string) (pay : json) (prio : QueuePriority)
    (delay_seconds : Z) (env : Env) (w : World)
    : World * outcome (bool * string * option string) :=
  let '(allowed, reason) := rate_verdict uid (now env) (limits w) (redis w) in
  if negb allowed then (w, Ok (false, reason, None))
  else if max_queue_size w <=? total_of (redis w)
  then (set_stats (count_overflow (stats w)) w, Ok (false, queue_full_reason, None))
  else (set_stats (count_queued (stats w))
          (set_redis (admitted uid jtype pay prio delay_seconds env (redis w)) w),
        Ok (true, "Job queued successfully"%string, Some (uuid4 env))).

(** what [_get_job_data] returns, as a function of the store *)
Definition read_job (jid : string) (r : Redis) : outcome (option QueueJob) :=
  match R.hget_data (job_key jid) r with
  | Some t =>
      if Parse.nonempty t then
        match try_bind (Parse.json_loads t) Parse.job_of_json with
        | Ok job => Ok (Some job)
        | Raise (KeyError k) => Raise (KeyError k)
        | Raise _ => Ok None
        end
      else Ok None
  | None => Ok None
  end.

Definition updated_job (job : QueueJob) (st : JobStatus) (error : option string) (t : Z)
    : QueueJob :=
  {| job_id := job_id job; user_id := user_id job; job_type := job_type job;
     payload := payload job; priority := priority job;
     status := st;
     created_at := created_at job; scheduled_at := scheduled_at job;
     started_at := if JobStatus_.eqb st PROCESSING then Some t else started_at job;
     completed_at := if JobStatus_.closes st then Some t else completed_at job;
     retry_count := retry_count job; max_retries := max_retries job;
     timeout_seconds := timeout_seconds job;
     error_message := match nonempty_error error with
                      | Some e => Some e
                      | None => error_message job
                      end;
     progress := progress job; metadata := metadata job |}.

(** the store after [_update_job_status] has found the job *)
Definition status_written (jid : string) (job : QueueJob) (st : JobStatus)
    (error : option string) (t : Z) (r : Redis) : Redis :=
  let r1 := R.hset_status (job_key jid) (dumps_job (updated_job job st error t))
                          (JobStatus_.value st) r in
  if JobStatus_.closes st then R.srem (user_jobs_key (user_id job)) jid r1 else r1.

(** ** The queues of a store *)
(** the active list and the delayed set of a priority *)
Definition active (p : QueuePriority) (r : Redis) : list string :=
  R.list_at (queue_keys p) (lists r).

Definition delayed (p : QueuePriority) (r : Redis) : gmap string Z :=
  R.zset_at (delayed_key p) (zsets r).

(** the number of jobs queued at a priority, active and delayed *)
Definition queue_size (p : QueuePriority) (r : Redis) : Z :=
  R.llen (queue_keys p) r + R.zcard (delayed_key p) r.

(** the due members of a delayed set *)
Definition ready (p : QueuePriority) (ts : Z) (r : Redis) : list string :=
  R.zrangebyscore (delayed_key p) 0 ts r.

(** one move of the promotion loop *)
Definition move (p : QueuePriority) (r : Redis) (jid : string) : Redis :=
  R.zrem (delayed_key p) jid (R.lpush (queue_keys p) jid r).

(** the store after the promotion of the due jobs of one priority, and of
    all priorities *)
Definition promote_queue (p : QueuePriority) (ts : Z) (r : Redis) : Redis :=
  fold_left (move p) (ready p ts r) r.

Definition promoted (ts : Z) (r : Redis) : Redis :=
  fold_left (fun r p => promote_queue p ts r) QueuePriority_.members r.

(** the order in which [dequeue_job] visits the active lists *)
Definition pop_order : list QueuePriority := [URGENT; HIGH; NORMAL; LOW].

Definition count_failed (s : Stats) : Stats :=
  {| jobs_queued := jobs_queued s; jobs_processed := jobs_processed s;
     jobs_failed := jobs_failed s + 1; queue_overflows := queue_overflows s |}.

Definition count_processed (s : Stats) : Stats :=
  {| jobs_queued := jobs_queued s; jobs_processed := jobs_processed s + 1;
     jobs_failed := jobs_failed s; queue_overflows := queue_overflows s |}.

(** the store after [add_failed_job] *)
Definition dead_lettered (job : QueueJob) (error : string) (t : Z) (r : Redis) : Redis :=
  R.dlq_ltrim_from_head 999 (R.dlq_lpush (json_dumps (dlq_entry job error t)) r).

(** the store after [_update_job_status], whatever it finds *)
Definition status_updated (jid : string) (st : JobStatus) (error : option string) (t : Z)
    (r : Redis) : Redis :=
  match read_job jid r with
  | Ok (Some job) => status_written jid job st error t r
  | _ => r
  end.

Definition retry_note (error : string) : option string := Some ("Retrying: " +:+ error).

Fixpoint fail_repeatedly (envs : list Env) (jid error : string) (w : World) : World :=
  match envs with
  | [] => w
  | env :: envs' => fail_repeatedly envs' jid error (fst (fail_job jid error true env w))
  end.

(** ** Scenario data *)
Module Scenario.

Definition t0 : Z := Datetime.of_fields 2024 3 15 10 30 0 0.

Definition at_second (n : Z) (uuid : string) : Env :=
  {| now := t0 + n * Datetime.us_per_second;
     time_time := t0 + n * Datetime.us_per_second;
     uuid4 := uuid |}.

Definition id_a : string := "0a6f1c52-7d3e-4b8a-9f10-2c4d5e6f7a81".
Definition id_b : string := "1b7e2d63-8e4f-4c9b-8a21-3d5e6f7a8b92".
Definition id_c : string := "2c8f3e74-9f50-4dac-9b32-4e6f7a8b9ca3".

Definition prompt : json := JObj [("prompt", JStr "a castle at dusk")].

Definition fresh : World := new_manager R.empty default_max_queue_size.

(** one job waiting with a delay of five seconds *)
Definition delayed_once : World :=
  fst (enqueue_job "alice" "image" prompt NORMAL 5 (at_second 0 id_a) fresh).

End Scenario.

(** a job document with the enum members written by value, as the reader
    expects them *)
Definition value_doc (j : QueueJob) : json :=
  JObj
    [ ("job_id", JStr (job_id j));
      ("user_id", JStr (user_id j));
      ("job_type", JStr (job_type j));
      ("payload", payload j);
      ("priority", JInt (QueuePriority_.value (priority j)));
      ("status", JStr (JobStatus_.value (status j)));
      ("created_at", JStr (Datetime.isoformat (created_at j)));
      ("scheduled_at", opt_json (fun t => JStr (Datetime.isoformat t)) (scheduled_at j));
      ("started_at", opt_json (fun t => JStr (Datetime.isoformat t)) (started_at j));
      ("completed_at", opt_json (fun t => JStr (Datetime.isoformat t)) (completed_at j));
      ("retry_count", JInt (retry_count j));
      ("max_retries", JInt (max_retries j));
      ("timeout_seconds", JInt (timeout_seconds j));
      ("error_message", opt_json JStr (error_message j));
      ("progress", progress j);
      ("metadata", metadata j) ].

Definition value_hash (j : QueueJob) : JobHash :=
  {| h_data := Some (JsonText (value_doc j));
     h_user_id := Some (user_id j);
     h_status := Some (JobStatus_.value (status j)) |}.

Module Stored.
Import Scenario.

Definition job_in (st : JobStatus) (jid : string) : QueueJob :=
  {| job_id := jid; user_id := "alice"; job_type := "image"; payload := prompt;
     priority := NORMAL; status := st; created_at := t0;
     scheduled_at := None; started_at := Some (t0 + 1000000);
     completed_at := if JobStatus_.closes st then Some (t0 + 9000000) else None;
     retry_count := 0; max_retries := 3; timeout_seconds := 300;
     error_message := None; progress := JFloat 0 0; metadata := JObj [] |}.

(** a store that holds a completed job and a failed one *)
Definition finished : World :=
  new_manager
    (R.set_hashes (fun _ => {[ job_key id_a := value_hash (job_in COMPLETED id_a);
                               job_key id_b := value_hash (job_in FAILED id_b) ]}) R.empty)
    default_max_queue_size.

(** a store that holds a job in progress, with room for one job, taken *)
Definition busy_and_full : World :=
  new_manager
    (R.lpush (queue_keys LOW) id_b
       (R.set_hashes (fun _ => {[ job_key id_a := value_hash (job_in PROCESSING id_a) ]})
                     R.empty))
    1.

End Stored.

(** ** Sequences of calls *)
Inductive call : Type :=
| Enqueue (uid jtype : string) (pay : json) (prio : QueuePriority) (delay_seconds : Z)
| Dequeue (timeout : Z)
| Complete (jid : string) (result : json)
| Fail (jid error : string) (retry : bool).

(** the manager after a call, whatever the call returned or raised *)
Definition perform (c : call) (env : Env) (w : World) : World :=
  match c with
  | Enqueue uid jtype pay prio delay_seconds =>
      fst (enqueue_job uid jtype pay prio delay_seconds env w)
  | Dequeue timeout => fst (dequeue_job timeout env w)
  | Complete jid result => fst (complete_job jid result env w)
  | Fail jid error retry => fst (fail_job jid error retry env w)
  end.

Fixpoint perform_all (trace : list (Env * call)) (w : World) : World :=
  match trace with
  | [] => w
  | (env, c) :: trace' => perform_all trace' (perform c env w)
  end.

(** the queues and the configuration are the same in both *)
Definition same_queues (w w' : World) : Prop :=
  lists (redis w') = lists (redis w) /\ zsets (redis w') = zsets (redis w)
  /\ max_queue_size w' = max_queue_size w.





Module Burst.
Import Scenario.

(** the n-th id of a run of requests *)
Definition id_of (n : Z) : string := "5e0f0000-0000-4000-8000-0000000000" +:+ Decimal.pad2 n.

Definition request (n : Z) : Env * call :=
  (at_second n (id_of n), Enqueue "alice" "image" prompt NORMAL 0).

(** a manager for ten jobs, after ten requests of one user within a minute *)
Definition ten_requests : World :=
  perform_all (map request [0; 1; 2; 3; 4; 5; 6; 7; 8; 9]) (new_manager R.empty 10).

End Burst.

(** the number of job records of a user whose stored status is PROCESSING *)
Definition processing_jobs_of (uid : string) (r : Redis) : Z :=
  Z.of_nat (length (List.filter
    (fun kh => bool_decide (h_user_id (snd kh) = Some uid)
               && bool_decide (h_status (snd kh) = Some (JobStatus_.value PROCESSING)))
    (map_to_list (hashes r)))).

Module Workers.
Import Scenario.

(** three readable jobs of one user wait in the NORMAL queue *)
Definition three_waiting : World :=
  new_manager
    (R.lpush (queue_keys NORMAL) id_c
       (R.lpush (queue_keys NORMAL) id_b
          (R.lpush (queue_keys NORMAL) id_a
             (R.set_hashes (fun _ => {[ job_key id_a := value_hash (Stored.job_in QUEUED id_a);
                                        job_key id_b := value_hash (Stored.job_in QUEUED id_b);
                                        job_key id_c := value_hash (Stored.job_in QUEUED id_c) ]})
                           R.empty))))
    default_max_queue_size.

Definition id_d : string := "3d904f85-a061-4ebd-8c43-5f7a8b9cadb4".

(** three workers have taken one job each *)
Definition three_taken : World :=
  perform_all [ (at_second 1 id_d, Dequeue 5); (at_second 2 id_d, Dequeue 5);
                (at_second 3 id_d, Dequeue 5) ] three_waiting.

End Workers.

(** no character of the text is a colon, as in the text of a UUID *)
Definition colon_free (s : string) : Prop := ":"%char ∉ list_ascii_of_string s.

Definition star (p : list ascii) : list ascii -> bool :=
  fix star (s : list ascii) : bool :=
    Glob.go p Glob.Top s || match s with [] => false | _ :: s' => star s' end.

(** the keys under which the manager keeps its data *)
Inductive manager_key : string -> Prop :=
| key_job jid : colon_free jid -> manager_key (job_key jid)
| key_result jid : colon_free jid -> manager_key (result_key jid)
| key_other key : (forall rest, key <> "job:" +:+ rest) -> manager_key key.

Module ModelCacheSpec.
Import ModelCache.

Section Stored.
Context {Model : Type}.

(** the cache after [put] has made room *)
Definition stored (model_id : string) (model : Model) (g : Gpu)
    (c : EnhancedModelCache Model) : EnhancedModelCache Model :=
  {| cache := Dict.set model_id model (cache c);
     usage_times := Dict.set model_id (clock g) (usage_times c);
     memory_sizes := if cuda_available g
                     then Dict.set model_id (allocated_after g - allocated_before g)
                                   (memory_sizes c)
                     else memory_sizes c;
     max_models := max_models c |}.

End Stored.

(** a device without memory pressure, read at the given time *)
Definition calm (t : Z) : Gpu :=
  {| cuda_available := true; usage_above_threshold := false;
     allocated_before := 0; allocated_after := 6442450944; clock := t |}.

End ModelCacheSpec.

(** no job record of the store can be read *)
Definition unreadable_store (r : Redis) : Prop :=
  forall jid, read_job jid r = Ok None.

(** every key of the store is a key of the manager *)
Definition manager_keys (r : Redis) : Prop :=
  (forall k, is_Some (hashes r !! k) -> manager_key k)
  /\ (forall k, is_Some (counters r !! k) -> manager_key k)
  /\ (forall k, is_Some (results r !! k) -> manager_key k)
  /\ (forall k, is_Some (lists r !! k) -> manager_key k)
  /\ (forall k, is_Some (zsets r !! k) -> manager_key k)
  /\ (forall k, is_Some (sets r !! k) -> manager_key k).

(** the ids that a call draws or is given have the shape of a UUID *)
Definition tame (ec : Env * call) : Prop :=
  colon_free (uuid4 (fst ec))
  /\ match snd ec with
     | Complete jid _ => colon_free jid
     | _ => True
     end.

(** * Properties *)

Example datetime_str_epoch : Datetime.str 0 = "1970-01-01 00:00:00"%string.
Proof. reflexivity. Qed.

Example datetime_str_2024 :
  Datetime.str (Datetime.of_fields 2024 2 29 13 4 5 123) = "2024-02-29 13:04:05.000123"%string.
Proof. vm_compute. reflexivity. Qed.

Example datetime_fromisoformat_2024 :
  Datetime.fromisoformat "2024-02-29 13:04:05.000123"
  = Some (Datetime.of_fields 2024 2 29 13 4 5 123).
Proof. vm_compute. reflexivity. Qed.

Example datetime_fromisoformat_bad_day : Datetime.fromisoformat "2023-02-29" = None.
Proof. vm_compute. reflexivity. Qed.

Example glob_star_matches :
  Glob.matches "job:*:user:alice:status:processing"
               "job:17:user:alice:status:processing" = true.
Proof. reflexivity. Qed.

Example glob_job_key_does_not_match :
  Glob.matches (concurrent_pattern "alice") (job_key Scenario.id_a) = false.
Proof. reflexivity. Qed.

Example glob_class_and_escape :
  Glob.matches "h[a-e]l?o\*" "hello*" = true /\ Glob.matches "h[^a-e]llo" "hello" = false.
Proof. split; reflexivity. Qed.

Example priority_of_its_value : QueuePriority_.of_value (JInt 3) = Some URGENT.
Proof. reflexivity. Qed.

Example status_of_its_value : JobStatus_.of_value (JStr "processing") = Some PROCESSING.
Proof. reflexivity. Qed.

Example backoff_values : map backoff [1; 2; 3; 4; 5; 6] = [20; 40; 80; 160; 300; 300].
Proof. reflexivity. Qed.

Lemma priority_text_is_no_value (p : QueuePriority) :
  QueuePriority_.of_value (JStr (QueuePriority_.str p)) = None.
Proof. reflexivity. Qed.

Lemma dumps_job_unreadable (j : QueueJob) :
  try_bind (Parse.json_loads (dumps_job j)) Parse.job_of_json = Raise ValueError.
Proof.
  unfold dumps_job, json_dumps. cbn [Parse.json_loads try_bind].
  unfold Parse.job_of_json.
  cbn [Parse.item Dict.get String.eqb Ascii.eqb Bool.eqb or_raise try_bind].
  unfold Parse.datetime_of at 1.
  destruct (Datetime.fromisoformat (Datetime.str (created_at j))) as [t|]; [|reflexivity].
  cbn [or_raise try_bind].
  unfold Parse.convert_optional.
  cbn [Parse.item Dict.get String.eqb Ascii.eqb Bool.eqb or_raise try_bind].
  destruct (scheduled_at j) as [t1|]; cbn [opt_json truthy];
  destruct (started_at j) as [t2|]; cbn [opt_json truthy];
  destruct (completed_at j) as [t3|]; cbn [opt_json truthy negb try_bind];
  repeat match goal with
  | |- context [negb (String.eqb ?s ""%string)] => destruct (String.eqb s ""%string); cbn [negb try_bind]
  | |- context [Parse.datetime_of (JStr ?s)] => unfold Parse.datetime_of at 1; destruct (Datetime.fromisoformat s); cbn [or_raise try_bind]
  end; reflexivity.
Qed.

Lemma check_rate_limit_eq uid env w :
  check_rate_limit uid env w = (w, Ok (rate_verdict uid (now env) (limits w) (redis w))).
Proof.
  unfold check_rate_limit, rate_verdict, get_concurrent_jobs, bind, ask, self, redis_read, ret.
  repeat match goal with
  | |- context [if ?b then _ else _] => destruct b
  end; reflexivity.
Qed.

Lemma enqueue_job_eq uid jtype pay prio delay_seconds env w :
  enqueue_job uid jtype pay prio delay_seconds env w
  = enqueue_result uid jtype pay prio delay_seconds env w.
Proof.
  unfold enqueue_job, enqueue_result, bind at 1. rewrite check_rate_limit_eq.
  destruct (rate_verdict uid (now env) (limits w) (redis w)) as [[|] reason]; cbn [negb].
  2: reflexivity.
  unfold _get_total_queue_size, bind, self, redis_read, stats_exec, ret.
  destruct (max_queue_size w <=? total_of (redis w)); [reflexivity|].
  unfold admitted, due_time, increment_rate_limit, bind, ask, redis_exec, stats_exec, ret.
  unfold set_stats, set_redis, new_job, count_queued.
  cbn [redis stats max_queue_size limits status].
  destruct (0 <? delay_seconds); reflexivity.
Qed.

Lemma _get_job_data_eq jid env w : _get_job_data jid env w = (w, read_job jid (redis w)).
Proof.
  unfold _get_job_data, read_job, bind, redis_read, ret, raise.
  destruct (R.hget_data (job_key jid) (redis w)) as [t|]; [|reflexivity].
  destruct (Parse.nonempty t); [|reflexivity].
  destruct (try_bind (Parse.json_loads t) Parse.job_of_json) as [job|[]]; reflexivity.
Qed.

Lemma _update_job_status_eq jid st error env w :
  _update_job_status jid st error env w
  = match read_job jid (redis w) with
    | Ok (Some job) => (set_redis (status_written jid job st error (now env) (redis w)) w, Ok tt)
    | Ok None => (w, Ok tt)
    | Raise e => (w, Raise e)
    end.
Proof.
  unfold _update_job_status, bind at 1. rewrite _get_job_data_eq.
  destruct (read_job jid (redis w)) as [[job|]|e]; try reflexivity.
  unfold status_written, updated_job, bind, ask, redis_exec, ret.
  destruct (JobStatus_.closes st); reflexivity.
Qed.

Lemma set_redis_same w : set_redis (redis w) w = w.
Proof. destruct w; reflexivity. Qed.

(** a record written by [_update_job_status] or by [enqueue_job] cannot be
    read back *)
Lemma read_job_hset_job jid data_job uid st r :
  read_job jid (R.hset_job (job_key jid) (dumps_job data_job) uid st r) = Ok None.
Proof.
  unfold read_job, R.hget_data, R.hset_job, R.set_hashes. cbn [hashes].
  rewrite lookup_insert_eq. cbn [mbind option_bind h_data].
  rewrite dumps_job_unreadable. reflexivity.
Qed.

Lemma read_job_hset_status jid data_job st r :
  read_job jid (R.hset_status (job_key jid) (dumps_job data_job) st r) = Ok None.
Proof.
  unfold read_job, R.hget_data, R.hset_status, R.set_hashes. cbn [hashes].
  rewrite lookup_insert_eq. cbn [mbind option_bind h_data].
  rewrite dumps_job_unreadable. reflexivity.
Qed.

Lemma set_redis_set_redis r r' w : set_redis r (set_redis r' w) = set_redis r w.
Proof. reflexivity. Qed.

Lemma redis_set_redis r w : redis (set_redis r w) = r.
Proof. reflexivity. Qed.

Lemma for_each_redis {A : Type} (l : list A) (body : A -> M unit)
    (f : A -> Redis -> Redis) env :
  (forall a w, body a env w = (set_redis (f a (redis w)) w, Ok tt)) ->
  forall w, for_each l body env w
            = (set_redis (fold_left (fun r a => f a r) l (redis w)) w, Ok tt).
Proof.
  intros Hbody. induction l as [|a l IH]; intros w.
  - cbn. now rewrite set_redis_same.
  - cbn [for_each fold_left]. unfold bind. rewrite Hbody, IH. reflexivity.
Qed.

Lemma _process_delayed_jobs_eq env w :
  _process_delayed_jobs env w = (set_redis (promoted (time_time env) (redis w)) w, Ok tt).
Proof.
  unfold _process_delayed_jobs, promoted. unfold bind at 1. unfold ask at 1.
  apply for_each_redis. intros p w'.
  unfold bind at 1. unfold redis_read at 1.
  unfold promote_queue, move, ready. apply for_each_redis. reflexivity.
Qed.

Lemma queue_keys_inj p q : queue_keys p = queue_keys q -> p = q.
Proof. destruct p, q; intros H; first [reflexivity | discriminate H]. Qed.

Lemma delayed_key_inj p q : delayed_key p = delayed_key q -> p = q.
Proof. destruct p, q; intros H; first [reflexivity | discriminate H]. Qed.

Lemma list_at_insert {A : Type} key key' (l : list A) m :
  R.list_at key' (<[key := l]> m) = if decide (key = key') then l else R.list_at key' m.
Proof.
  unfold R.list_at. rewrite lookup_insert. destruct (decide (key = key')); reflexivity.
Qed.

Lemma list_at_store_list {A : Type} key key' (l : list A) m :
  R.list_at key' (R.store_list key l m) = if decide (key = key') then l else R.list_at key' m.
Proof.
  unfold R.store_list. destruct l as [|a l].
  - unfold R.list_at. rewrite lookup_delete. destruct (decide (key = key')); reflexivity.
  - apply list_at_insert.
Qed.

Lemma zset_at_insert key key' (z : gmap string Z) m :
  R.zset_at key' (<[key := z]> m) = if decide (key = key') then z else R.zset_at key' m.
Proof.
  unfold R.zset_at. rewrite lookup_insert. destruct (decide (key = key')); reflexivity.
Qed.

Lemma zset_at_store_zset key key' (z : gmap string Z) m :
  R.zset_at key' (R.store_zset key z m) = if decide (key = key') then z else R.zset_at key' m.
Proof.
  unfold R.store_zset. destruct (decide (z = ∅)) as [->|].
  - unfold R.zset_at. rewrite lookup_delete. destruct (decide (key = key')); reflexivity.
  - apply zset_at_insert.
Qed.

Lemma active_lpush p q jid r :
  active q (R.lpush (queue_keys p) jid r)
  = if decide (p = q) then jid :: active q r else active q r.
Proof.
  unfold active, R.lpush, R.set_lists. cbn [lists]. rewrite list_at_insert.
  destruct (decide (queue_keys p = queue_keys q)) as [E|N], (decide (p = q)) as [->|N'];
    try reflexivity.
  - now apply queue_keys_inj in E.
  - now contradiction N.
Qed.

Lemma delayed_zadd p q jid score r :
  delayed q (R.zadd (delayed_key p) jid score r)
  = if decide (p = q) then <[jid := score]> (delayed q r) else delayed q r.
Proof.
  unfold delayed, R.zadd, R.set_zsets. cbn [zsets]. rewrite zset_at_insert.
  destruct (decide (delayed_key p = delayed_key q)) as [E|N], (decide (p = q)) as [->|N'];
    try reflexivity.
  - now apply delayed_key_inj in E.
  - now contradiction N.
Qed.

Lemma delayed_zrem p q jid r :
  delayed q (R.zrem (delayed_key p) jid r)
  = if decide (p = q) then delete jid (delayed q r) else delayed q r.
Proof.
  unfold delayed, R.zrem, R.set_zsets. cbn [zsets]. rewrite zset_at_store_zset.
  destruct (decide (delayed_key p = delayed_key q)) as [E|N], (decide (p = q)) as [->|N'];
    try reflexivity.
  - now apply delayed_key_inj in E.
  - now contradiction N.
Qed.

Lemma brpop_result key timeout r :
  snd (R.brpop key timeout r) = last (R.list_at key (lists r)).
Proof. unfold R.brpop. destruct (last (R.list_at key (lists r))); reflexivity. Qed.

Lemma active_brpop p q timeout r :
  active q (fst (R.brpop (queue_keys p) timeout r))
  = if decide (p = q) then removelast (active q r) else active q r.
Proof.
  unfold active, R.brpop.
  destruct (last (R.list_at (queue_keys p) (lists r))) as [v|] eqn:E; cbn [fst].
  - unfold R.set_lists. cbn [lists]. rewrite list_at_store_list.
    destruct (decide (queue_keys p = queue_keys q)) as [E'|N], (decide (p = q)) as [->|N'];
      try reflexivity.
    + now apply queue_keys_inj in E'.
    + now contradiction N.
  - destruct (decide (p = q)) as [->|]; [|reflexivity].
    apply last_None in E. rewrite E. reflexivity.
Qed.

Lemma brpop_frame key timeout r :
  let r' := fst (R.brpop key timeout r) in
  hashes r' = hashes r /\ zsets r' = zsets r /\ dead_letters r' = dead_letters r
  /\ counters r' = counters r /\ sets r' = sets r /\ results r' = results r.
Proof.
  unfold R.brpop. destruct (last (R.list_at key (lists r))); cbn; auto 10.
Qed.

Lemma zinsert_perm e l : R.zinsert e l ≡ₚ e :: l.
Proof.
  induction l as [|e' l IH]; cbn; [reflexivity|].
  destruct (R.zbefore e e'); [reflexivity|].
  rewrite IH. apply perm_swap.
Qed.

Lemma zsorted_perm (z : gmap string Z) : R.zsorted z ≡ₚ map_to_list z.
Proof.
  unfold R.zsorted. induction (map_to_list z) as [|e l IH]; cbn; [reflexivity|].
  rewrite zinsert_perm. now rewrite IH.
Qed.

Lemma elem_of_List_filter {A : Type} (f : A -> bool) (l : list A) (x : A) :
  x ∈ List.filter f l <-> f x = true /\ x ∈ l.
Proof. rewrite !list_elem_of_In, filter_In. tauto. Qed.

Lemma elem_of_ready p ts r jid :
  jid ∈ ready p ts r <-> exists s, delayed p r !! jid = Some s /\ 0 <= s <= ts.
Proof.
  unfold ready, R.zrangebyscore. fold (delayed p r).
  rewrite list_elem_of_fmap. split.
  - intros [[j s] [-> Hin]]. apply elem_of_List_filter in Hin as [Hs Hin].
    rewrite zsorted_perm in Hin. apply elem_of_map_to_list in Hin.
    exists s. split; [exact Hin|]. cbn in Hs.
    apply andb_true_iff in Hs as [H1 H2]. lia.
  - intros [s [Hl Hs]]. exists (jid, s). split; [reflexivity|].
    apply elem_of_List_filter. split.
    + cbn. apply andb_true_iff. split; lia.
    + rewrite zsorted_perm. now apply elem_of_map_to_list.
Qed.

Lemma NoDup_ready p ts r : NoDup (ready p ts r).
Proof.
  unfold ready, R.zrangebyscore. fold (delayed p r).
  assert (H : NoDup ((R.zsorted (delayed p r)).*1)).
  { rewrite zsorted_perm. apply NoDup_fst_map_to_list. }
  revert H. generalize (R.zsorted (delayed p r)). intros l.
  induction l as [|[j s] l IH]; cbn; intros H; [constructor|].
  apply NoDup_cons in H as [Hn Hd].
  destruct ((0 <=? s) && (s <=? ts)); cbn; [|now apply IH].
  apply NoDup_cons. split; [|now apply IH].
  intros Hin. apply Hn. apply list_elem_of_fmap in Hin as [[j' s'] [-> Hin]].
  apply elem_of_List_filter in Hin as [_ Hin].
  apply list_elem_of_fmap. now exists (j', s').
Qed.

Lemma active_move p q r jid :
  active q (move p r jid) = if decide (p = q) then jid :: active q r else active q r.
Proof. exact (active_lpush p q jid r). Qed.

Lemma delayed_move p q r jid :
  delayed q (move p r jid) = if decide (p = q) then delete jid (delayed q r) else delayed q r.
Proof. unfold move. now rewrite delayed_zrem. Qed.

Lemma active_moves p q l r :
  active q (fold_left (move p) l r)
  = if decide (p = q) then rev l ++ active q r else active q r.
Proof.
  revert r. induction l as [|jid l IH]; intros r; cbn [fold_left].
  - destruct (decide (p = q)); reflexivity.
  - rewrite IH, active_move. destruct (decide (p = q)); [|reflexivity].
    cbn [rev]. now rewrite <- app_assoc.
Qed.

Lemma delayed_moves p q l r :
  delayed q (fold_left (move p) l r)
  = if decide (p = q) then fold_left (fun z jid => delete jid z) l (delayed q r)
    else delayed q r.
Proof.
  revert r. induction l as [|jid l IH]; intros r; cbn [fold_left].
  - destruct (decide (p = q)); reflexivity.
  - rewrite IH, delayed_move. destruct (decide (p = q)); reflexivity.
Qed.


Lemma size_deletes (l : list string) (z : gmap string Z) :
  NoDup l -> (forall j, j ∈ l -> is_Some (z !! j)) ->
  (size (fold_left (fun z jid => delete jid z) l z) + length l)%nat = size z.
Proof.
  revert z. induction l as [|j l IH]; intros z Hd Hin; cbn [fold_left length].
  - lia.
  - apply NoDup_cons in Hd as [Hn Hd].
    destruct (Hin j) as [s Hs]; [apply elem_of_cons; now left|].
    rewrite Nat.add_succ_r, IH; [| exact Hd |].
    + pose proof (map_size_delete j z) as Hsz. rewrite Hs in Hsz.
      assert (size z <> 0%nat).
      { intros Hz. apply map_size_empty_iff in Hz. subst z. now rewrite lookup_empty in Hs. }
      lia.
    + intros j' Hj'. rewrite lookup_delete_ne.
      * apply Hin. apply elem_of_cons. now right.
      * intros ->. contradiction.
Qed.

Lemma read_job_hashes jid r r' : hashes r = hashes r' -> read_job jid r = read_job jid r'.
Proof. intros H. unfold read_job, R.hget_data. now rewrite H. Qed.

Lemma status_written_queues jid job st error t r :
  lists (status_written jid job st error t r) = lists r
  /\ zsets (status_written jid job st error t r) = zsets r
  /\ dead_letters (status_written jid job st error t r) = dead_letters r.
Proof. unfold status_written. destruct (JobStatus_.closes st); auto. Qed.

Lemma redis_call_brpop key timeout env w :
  redis_call (R.brpop key timeout) env w
  = (set_redis (fst (R.brpop key timeout (redis w))) w, Ok (last (R.list_at key (lists (redis w))))).
Proof.
  unfold redis_call. rewrite <- (brpop_result key timeout).
  destruct (R.brpop key timeout (redis w)); reflexivity.
Qed.

Lemma dequeue_from_cons p ps timeout env w :
  dequeue_from (p :: ps) timeout env w
  = let w1 := set_redis (fst (R.brpop (queue_keys p) timeout (redis w))) w in
    match last (active p (redis w)) with
    | Some jid =>
        match read_job jid (redis w) with
        | Ok (Some job) =>
            (set_redis (status_written jid job PROCESSING None (now env) (redis w1)) w1,
             Ok (Some job))
        | Ok None => dequeue_from ps timeout env w1
        | Raise e => (w1, Raise e)
        end
    | None => dequeue_from ps timeout env w1
    end.
Proof.
  cbn [dequeue_from]. unfold bind at 1. rewrite redis_call_brpop. fold (active p (redis w)).
  destruct (last (active p (redis w))) as [jid|]; [|reflexivity].
  unfold bind at 1. rewrite _get_job_data_eq. cbn [redis set_redis].
  rewrite (read_job_hashes jid _ (redis w)) by apply brpop_frame.
  destruct (read_job jid (redis w)) as [[job|]|e] eqn:E; try reflexivity.
  unfold bind at 1. rewrite _update_job_status_eq. cbn [redis set_redis].
  rewrite (read_job_hashes jid _ (redis w)) by apply brpop_frame.
  rewrite E. reflexivity.
Qed.

Lemma removelast_prefix {A : Type} (l : list A) : removelast l `prefix_of` l.
Proof.
  induction l as [|a l IH]; [reflexivity|].
  destruct l as [|b l]; [apply prefix_nil|].
  change (removelast (a :: b :: l)) with (a :: removelast (b :: l)).
  now apply prefix_cons.
Qed.

Lemma removelast_length {A : Type} (l : list A) : (length (removelast l) <= length l)%nat.
Proof. apply prefix_length, removelast_prefix. Qed.

(** what one call of the pop loop does to the queues, and where a returned
    job comes from *)
Lemma dequeue_from_spec ps timeout env w :
  let w' := fst (dequeue_from ps timeout env w) in
  zsets (redis w') = zsets (redis w)
  /\ dead_letters (redis w') = dead_letters (redis w)
  /\ (forall q, q ∉ ps -> active q (redis w') = active q (redis w))
  /\ (forall q, active q (redis w') `prefix_of` active q (redis w))
  /\ (forall job, snd (dequeue_from ps timeout env w) = Ok (Some job) ->
        exists p jid, p ∈ ps /\ jid ∈ active p (redis w)
                      /\ read_job jid (redis w) = Ok (Some job)).
Proof.
  revert w. induction ps as [|p ps IH]; intros w.
  { cbn. repeat split; auto. intros job H. discriminate H. }
  cbn zeta. rewrite dequeue_from_cons. cbn zeta.
  set (w1 := set_redis (fst (R.brpop (queue_keys p) timeout (redis w))) w).
  assert (Hz : zsets (redis w1) = zsets (redis w)) by apply brpop_frame.
  assert (Hd : dead_letters (redis w1) = dead_letters (redis w)) by apply brpop_frame.
  assert (Hh : hashes (redis w1) = hashes (redis w)) by apply brpop_frame.
  assert (Ha : forall q, active q (redis w1)
                         = if decide (p = q) then removelast (active q (redis w))
                           else active q (redis w))
    by (intros q; apply active_brpop).
  assert (Hp : forall q, active q (redis w1) `prefix_of` active q (redis w)).
  { intros q. rewrite Ha. destruct (decide (p = q)); [apply removelast_prefix|reflexivity]. }
  assert (Hrec :
    let w' := fst (dequeue_from ps timeout env w1) in
    zsets (redis w') = zsets (redis w)
    /\ dead_letters (redis w') = dead_letters (redis w)
    /\ (forall q, q ∉ p :: ps -> active q (redis w') = active q (redis w))
    /\ (forall q, active q (redis w') `prefix_of` active q (redis w))
    /\ (forall job, snd (dequeue_from ps timeout env w1) = Ok (Some job) ->
          exists p0 jid, p0 ∈ p :: ps /\ jid ∈ active p0 (redis w)
                        /\ read_job jid (redis w) = Ok (Some job))).
  { destruct (IH w1) as (I1 & I2 & I3 & I4 & I5). cbn zeta.
    split; [congruence|]. split; [congruence|]. split.
    { intros q Hq. rewrite I3.
      - rewrite Ha. rewrite decide_False; [reflexivity|]. intros ->. apply Hq. now left.
      - intros Hin. apply Hq. now right. }
    split.
    { intros q. etransitivity; [apply I4 | apply Hp]. }
    intros job Hjob. destruct (I5 job Hjob) as (p0 & jid & Hp0 & Hin & Hread).
    exists p0, jid. split; [now right|]. split.
    - eapply elem_of_prefix; [exact Hin | apply Hp].
    - rewrite <- Hread. now apply read_job_hashes. }
  destruct (last (active p (redis w))) as [jid|] eqn:El; [|exact Hrec].
  destruct (read_job jid (redis w)) as [[job|]|e] eqn:Er; [| exact Hrec |].
  - cbn [fst snd redis set_redis].
    destruct (status_written_queues jid job PROCESSING None (now env) (redis w1))
      as (S1 & S2 & S3).
    split; [congruence|]. split; [congruence|].
    assert (Hact : forall q, active q (status_written jid job PROCESSING None (now env) (redis w1))
                             = active q (redis w1)).
    { intros q. unfold active. now rewrite S1. }
    split.
    { intros q Hq. rewrite Hact, Ha. rewrite decide_False; [reflexivity|].
      intros ->. apply Hq. now left. }
    split.
    { intros q. rewrite Hact. apply Hp. }
    intros job' Hjob'. injection Hjob' as <-.
    exists p, jid. split; [now left|]. split; [|exact Er].
    apply last_Some in El as [l' ->]. apply elem_of_app. right. now left.
  - cbn [fst snd]. split; [exact Hz|]. split; [exact Hd|]. split.
    { intros q Hq. rewrite Ha. rewrite decide_False; [reflexivity|].
      intros ->. apply Hq. now left. }
    split; [exact Hp|]. intros job H. discriminate H.
Qed.

Lemma dequeue_job_eq timeout env w :
  dequeue_job timeout env w
  = dequeue_from pop_order timeout env (set_redis (promoted (time_time env) (redis w)) w).
Proof. unfold dequeue_job, bind. now rewrite _process_delayed_jobs_eq. Qed.



Lemma final_failure_eq jid job error env w :
  final_failure jid job error env w
  = match read_job jid (redis w) with
    | Raise e => (w, Raise e)
    | Ok _ =>
        (set_stats (count_failed (stats w))
           (set_redis (dead_lettered job error (now env)
                         (status_updated jid FAILED (Some error) (now env) (redis w))) w),
         Ok tt)
    end.
Proof.
  unfold final_failure, bind at 1. rewrite _update_job_status_eq. unfold status_updated.
  destruct (read_job jid (redis w)) as [[j|]|e]; reflexivity.
Qed.

Lemma complete_job_eq jid result env w :
  complete_job jid result env w
  = match read_job jid (redis w) with
    | Raise e => (w, Raise e)
    | Ok _ =>
        (set_stats (count_processed (stats w))
           (set_redis (R.set_result (result_key jid) (json_dumps result)
                         (status_updated jid COMPLETED None (now env) (redis w))) w),
         Ok tt)
    end.
Proof.
  unfold complete_job, bind at 1. rewrite _update_job_status_eq. unfold status_updated.
  destruct (read_job jid (redis w)) as [[j|]|e]; reflexivity.
Qed.

Lemma fail_job_eq jid error retry env w :
  fail_job jid error retry env w
  = match read_job jid (redis w) with
    | Raise e => (w, Raise e)
    | Ok None => (w, Ok tt)
    | Ok (Some job0) =>
        let job := with_retry_count job0 (retry_count job0 + 1) in
        if retry && (retry_count job <=? max_retries job) then
          match enqueue_result (user_id job) (job_type job) (payload job) (priority job)
                               (backoff (retry_count job)) env w with
          | (w1, Ok (true, _, _)) => _update_job_status jid CANCELLED (retry_note error) env w1
          | (w1, Ok (false, _, _)) => final_failure jid job error env w1
          | (w1, Raise e) => (w1, Raise e)
          end
        else final_failure jid job error env w
    end.
Proof.
  unfold fail_job, bind at 1. rewrite _get_job_data_eq.
  destruct (read_job jid (redis w)) as [[job0|]|e]; try reflexivity.
  cbn zeta.
  destruct (retry && _); [|reflexivity].
  unfold bind at 1. rewrite enqueue_job_eq.
  destruct (enqueue_result _ _ _ _ _ env w) as [w1 [[[[|] reason] nid]|e]]; reflexivity.
Qed.

Lemma job_key_inj a b : job_key a = job_key b -> a = b.
Proof. unfold job_key. cbn. intros H. now injection H. Qed.

Lemma hashes_admitted uid jtype pay prio delay env r :
  hashes (admitted uid jtype pay prio delay env r)
  = <[job_key (uuid4 env) :=
        {| h_data := Some (dumps_job (new_job uid jtype pay prio delay env));
           h_user_id := Some uid; h_status := Some "queued"%string |}]> (hashes r).
Proof. unfold admitted. destruct (0 <? delay); reflexivity. Qed.

Lemma read_job_admitted uid jtype pay prio delay env r :
  read_job (uuid4 env) (admitted uid jtype pay prio delay env r) = Ok None.
Proof.
  rewrite <- (read_job_hset_job (uuid4 env) (new_job uid jtype pay prio delay env)
                uid "queued" r).
  apply read_job_hashes. now rewrite hashes_admitted.
Qed.

Lemma read_job_admitted_other uid jtype pay prio delay env r jid :
  uuid4 env <> jid ->
  read_job jid (admitted uid jtype pay prio delay env r) = read_job jid r.
Proof.
  intros N. unfold read_job, R.hget_data. rewrite hashes_admitted.
  rewrite lookup_insert_ne; [reflexivity|]. intros E. now apply job_key_inj in E.
Qed.

(** the outcomes of [enqueue_job] *)
Lemma enqueue_job_cases uid jtype pay prio delay env w :
  (exists reason, enqueue_job uid jtype pay prio delay env w = (w, Ok (false, reason, None))
                  /\ rate_verdict uid (now env) (limits w) (redis w) = (false, reason))
  \/ (enqueue_job uid jtype pay prio delay env w
      = (set_stats (count_overflow (stats w)) w, Ok (false, queue_full_reason, None))
      /\ fst (rate_verdict uid (now env) (limits w) (redis w)) = true
      /\ max_queue_size w <= total_of (redis w))
  \/ (enqueue_job uid jtype pay prio delay env w
      = (set_stats (count_queued (stats w))
           (set_redis (admitted uid jtype pay prio delay env (redis w)) w),
         Ok (true, "Job queued successfully"%string, Some (uuid4 env)))
      /\ fst (rate_verdict uid (now env) (limits w) (redis w)) = true
      /\ total_of (redis w) < max_queue_size w).
Proof.
  rewrite enqueue_job_eq. unfold enqueue_result.
  destruct (rate_verdict uid (now env) (limits w) (redis w)) as [[|] reason]; cbn [negb fst].
  - destruct (Z.leb_spec (max_queue_size w) (total_of (redis w))).
    + right. left. auto.
    + right. right. auto.
  - left. exists reason. auto.
Qed.

Lemma enqueue_job_admitted uid jtype pay prio delay env w msg jid :
  snd (enqueue_job uid jtype pay prio delay env w) = Ok (true, msg, Some jid) ->
  jid = uuid4 env
  /\ fst (enqueue_job uid jtype pay prio delay env w)
     = set_stats (count_queued (stats w))
         (set_redis (admitted uid jtype pay prio delay env (redis w)) w)
  /\ total_of (redis w) < max_queue_size w.
Proof.
  destruct (enqueue_job_cases uid jtype pay prio delay env w)
    as [(reason & -> & _) | [(-> & _) | (-> & _ & Hlt)]]; cbn [fst snd]; intros H.
  - discriminate H.
  - discriminate H.
  - injection H as _ <-. auto.
Qed.

Lemma hget_status_status_written jid job st error t r :
  R.hget_status (job_key jid) (status_written jid job st error t r)
  = Some (JobStatus_.value st).
Proof.
  unfold status_written, R.hget_status.
  assert (E : forall x, hashes (if JobStatus_.closes st
                                then R.srem (user_jobs_key (user_id job)) jid x else x)
                        = hashes x) by (intros x; destruct (JobStatus_.closes st); reflexivity).
  rewrite E. unfold R.hset_status, R.set_hashes. cbn [hashes].
  now rewrite lookup_insert_eq.
Qed.

(** C1 (the code breaks this claim).  Whenever [enqueue_job] admits a job and
    returns its id, the record it has written is there, and
    [_get_job_data] of that id returns [None]: the document holds
    [str(priority)] and [str(status)], which [QueuePriority(...)] rejects
    with a [ValueError] that the reader catches.  No job read back equals the
    job written. *)
Theorem enqueued_job_reads_back_as_none uid jtype pay prio delay env w msg jid env' :
  snd (enqueue_job uid jtype pay prio delay env w) = Ok (true, msg, Some jid) ->
  let w' := fst (enqueue_job uid jtype pay prio delay env w) in
  R.hget_data (job_key jid) (redis w')
  = Some (dumps_job (new_job uid jtype pay prio delay env))
  /\ _get_job_data jid env' w' = (w', Ok None).
Proof.
  intros H. apply enqueue_job_admitted in H as (-> & -> & _). cbn zeta.
  rewrite _get_job_data_eq. cbn [redis set_stats set_redis]. split.
  - unfold R.hget_data. rewrite hashes_admitted, lookup_insert_eq. reflexivity.
  - now rewrite read_job_admitted.
Qed.

Lemma enqueued_job_reads_back_as_none_witness :
  snd (enqueue_job "alice" "image" Scenario.prompt NORMAL 5
         (Scenario.at_second 0 Scenario.id_a) Scenario.fresh)
  = Ok (true, "Job queued successfully"%string, Some Scenario.id_a)
  /\ _get_job_data Scenario.id_a (Scenario.at_second 1 Scenario.id_b) Scenario.delayed_once
     = (Scenario.delayed_once, Ok None).
Proof.
  split; [vm_compute; reflexivity|].
  apply (enqueued_job_reads_back_as_none "alice" "image" Scenario.prompt NORMAL 5
           (Scenario.at_second 0 Scenario.id_a) Scenario.fresh
           "Job queued successfully" Scenario.id_a).
  vm_compute. reflexivity.
Defined.

Lemma fail_job_unreadable jid error retry env w :
  read_job jid (redis w) = Ok None -> fail_job jid error retry env w = (w, Ok tt).
Proof. intros H. now rewrite fail_job_eq, H. Qed.

Lemma fail_repeatedly_unreadable envs jid error w :
  read_job jid (redis w) = Ok None -> fail_repeatedly envs jid error w = w.
Proof.
  intros H. induction envs as [|env envs IH]; [reflexivity|].
  cbn [fail_repeatedly]. now rewrite fail_job_unreadable.
Qed.

(** C2 (the code breaks this claim).  A job admitted by [enqueue_job] has
    [max_retries = 3].  However many times [fail_job] is then called for it
    with [retry=true], four times included, nothing changes: the stored
    status is still [queued] and the dead-letter list is what it was before
    the job was enqueued. *)
Theorem four_failures_leave_job_queued uid jtype pay prio delay env w msg jid envs error :
  snd (enqueue_job uid jtype pay prio delay env w) = Ok (true, msg, Some jid) ->
  let w1 := fst (enqueue_job uid jtype pay prio delay env w) in
  let w4 := fail_repeatedly envs jid error w1 in
  max_retries (new_job uid jtype pay prio delay env) = 3
  /\ w4 = w1
  /\ R.hget_status (job_key jid) (redis w4) = Some (JobStatus_.value QUEUED)
  /\ dead_letters (redis w4) = dead_letters (redis w).
Proof.
  intros H. apply enqueue_job_admitted in H as (-> & -> & _). cbn zeta.
  split; [reflexivity|].
  rewrite fail_repeatedly_unreadable
    by (cbn [redis set_stats set_redis]; apply read_job_admitted).
  split; [reflexivity|]. cbn [redis set_stats set_redis]. split.
  - unfold R.hget_status. rewrite hashes_admitted, lookup_insert_eq. reflexivity.
  - unfold admitted. destruct (0 <? delay); reflexivity.
Qed.

Lemma four_failures_leave_job_queued_witness :
  let reports := [ Scenario.at_second 10 Scenario.id_b; Scenario.at_second 20 Scenario.id_b;
                   Scenario.at_second 30 Scenario.id_b; Scenario.at_second 40 Scenario.id_b ] in
  snd (enqueue_job "alice" "image" Scenario.prompt NORMAL 0
         (Scenario.at_second 0 Scenario.id_a) Scenario.fresh)
  = Ok (true, "Job queued successfully"%string, Some Scenario.id_a)
  /\ R.hget_status (job_key Scenario.id_a)
       (redis (fail_repeatedly reports Scenario.id_a "out of memory"
                 (fst (enqueue_job "alice" "image" Scenario.prompt NORMAL 0
                         (Scenario.at_second 0 Scenario.id_a) Scenario.fresh))))
     = Some "queued"%string
  /\ dead_letters
       (redis (fail_repeatedly reports Scenario.id_a "out of memory"
                 (fst (enqueue_job "alice" "image" Scenario.prompt NORMAL 0
                         (Scenario.at_second 0 Scenario.id_a) Scenario.fresh))))
     = [].
Proof.
  cbn zeta. split; [vm_compute; reflexivity|].
  apply (four_failures_leave_job_queued "alice" "image" Scenario.prompt NORMAL 0
           (Scenario.at_second 0 Scenario.id_a) Scenario.fresh
           "Job queued successfully" Scenario.id_a).
  vm_compute. reflexivity.
Defined.

Example value_doc_reads_back :
  _get_job_data Scenario.id_a (Scenario.at_second 20 Scenario.id_c) Stored.finished
  = (Stored.finished, Ok (Some (Stored.job_in COMPLETED Scenario.id_a))).
Proof. vm_compute. reflexivity. Qed.

Lemma snd_get_job_data jid env w : snd (_get_job_data jid env w) = read_job jid (redis w).
Proof. now rewrite _get_job_data_eq. Qed.

(** C7 (counterexample).  A stored job is COMPLETED and another is FAILED;
    [_update_job_status] turns the first into PROCESSING, [fail_job] turns it
    into FAILED, and [complete_job] turns the second into COMPLETED. *)
Lemma terminal_status_is_overwritten :
  let env := Scenario.at_second 20 Scenario.id_c in
  let key_a := job_key Scenario.id_a in
  let key_b := job_key Scenario.id_b in
  R.hget_status key_a (redis Stored.finished) = Some "completed"%string
  /\ R.hget_status key_b (redis Stored.finished) = Some "failed"%string
  /\ R.hget_status key_a
       (redis (fst (_update_job_status Scenario.id_a PROCESSING None env Stored.finished)))
     = Some "processing"%string
  /\ R.hget_status key_a
       (redis (fst (fail_job Scenario.id_a "out of memory" false env Stored.finished)))
     = Some "failed"%string
  /\ R.hget_status key_b
       (redis (fst (complete_job Scenario.id_b (JObj []) env Stored.finished)))
     = Some "completed"%string.
Proof. vm_compute. repeat split; reflexivity. Qed.

Lemma hget_status_status_updated jid job st error t r :
  read_job jid r = Ok (Some job) ->
  R.hget_status (job_key jid) (status_updated jid st error t r) = Some (JobStatus_.value st).
Proof. intros H. unfold status_updated. rewrite H. apply hget_status_status_written. Qed.

Lemma hashes_dead_lettered job error t r : hashes (dead_lettered job error t r) = hashes r.
Proof. reflexivity. Qed.

(** C7 (amended).  The stored status is never consulted.  For a job whose
    record can be read, whatever its status: [_update_job_status] stores the
    status it is given, [complete_job] stores COMPLETED, and [fail_job]
    stores FAILED or CANCELLED. *)
Theorem status_is_overwritten_unconditionally jid job env w :
  snd (_get_job_data jid env w) = Ok (Some job) ->
  uuid4 env <> jid ->
  (forall st error,
     R.hget_status (job_key jid) (redis (fst (_update_job_status jid st error env w)))
     = Some (JobStatus_.value st))
  /\ (forall result,
        R.hget_status (job_key jid) (redis (fst (complete_job jid result env w)))
        = Some (JobStatus_.value COMPLETED))
  /\ (forall error retry,
        let st := R.hget_status (job_key jid) (redis (fst (fail_job jid error retry env w))) in
        st = Some (JobStatus_.value FAILED) \/ st = Some (JobStatus_.value CANCELLED)).
Proof.
  rewrite snd_get_job_data. intros Hread Hfresh. split; [|split].
  - intros st error. rewrite _update_job_status_eq, Hread. cbn [fst redis set_redis].
    apply hget_status_status_written.
  - intros result. rewrite complete_job_eq, Hread. cbn [fst redis set_redis set_stats].
    unfold R.hget_status. change (hashes (R.set_result ?k ?v ?r)) with (hashes r).
    now apply (hget_status_status_updated jid job).
  - intros error retry. cbn zeta. rewrite fail_job_eq, Hread. cbn zeta.
    assert (Hfinal : forall w1, redis w1 = redis w ->
      R.hget_status (job_key jid)
        (redis (fst (final_failure jid (with_retry_count job (retry_count job + 1)) error env w1)))
      = Some (JobStatus_.value FAILED)).
    { intros w1 E. rewrite final_failure_eq, E, Hread. cbn [fst redis set_redis set_stats].
      unfold R.hget_status. rewrite hashes_dead_lettered.
      now apply (hget_status_status_updated jid job). }
    destruct (retry && _); [|left; now apply Hfinal].
    destruct (enqueue_job_cases (user_id (with_retry_count job (retry_count job + 1)))
                (job_type (with_retry_count job (retry_count job + 1)))
                (payload (with_retry_count job (retry_count job + 1)))
                (priority (with_retry_count job (retry_count job + 1)))
                (backoff (retry_count (with_retry_count job (retry_count job + 1)))) env w)
      as [(reason & E & _) | [(E & _) | (E & _)]];
      rewrite enqueue_job_eq in E; rewrite E.
    + left. now apply Hfinal.
    + left. now apply Hfinal.
    + right. rewrite _update_job_status_eq. cbn [redis set_redis set_stats].
      rewrite read_job_admitted_other, Hread by exact Hfresh.
      cbn [fst redis set_redis]. apply hget_status_status_written.
Qed.

Lemma status_is_overwritten_unconditionally_witness :
  (snd (_get_job_data Scenario.id_a (Scenario.at_second 20 Scenario.id_c) Stored.finished)
   = Ok (Some (Stored.job_in COMPLETED Scenario.id_a))
   /\ uuid4 (Scenario.at_second 20 Scenario.id_c) <> Scenario.id_a)
  /\ R.hget_status (job_key Scenario.id_a)
       (redis (fst (_update_job_status Scenario.id_a QUEUED None
                      (Scenario.at_second 20 Scenario.id_c) Stored.finished)))
     = Some (JobStatus_.value QUEUED).
Proof.
  assert (H1 : snd (_get_job_data Scenario.id_a (Scenario.at_second 20 Scenario.id_c)
                      Stored.finished)
               = Ok (Some (Stored.job_in COMPLETED Scenario.id_a)))
    by (vm_compute; reflexivity).
  assert (H2 : uuid4 (Scenario.at_second 20 Scenario.id_c) <> Scenario.id_a)
    by (vm_compute; discriminate).
  split; [split; assumption|].
  exact (proj1 (status_is_overwritten_unconditionally Scenario.id_a
                  (Stored.job_in COMPLETED Scenario.id_a)
                  (Scenario.at_second 20 Scenario.id_c) Stored.finished H1 H2)
               QUEUED None).
Defined.



Lemma queue_size_eq p r :
  queue_size p r = Z.of_nat (length (active p r)) + Z.of_nat (size (delayed p r)).
Proof. reflexivity. Qed.

Lemma total_of_sum r :
  total_of r = queue_size URGENT r + queue_size HIGH r + queue_size NORMAL r + queue_size LOW r.
Proof. unfold total_of, queue_size, queue_keys_items. cbn [fold_left]. lia. Qed.

Lemma queue_size_ext p r r' :
  lists r' = lists r -> zsets r' = zsets r -> queue_size p r' = queue_size p r.
Proof. intros H1 H2. unfold queue_size, R.llen, R.zcard. now rewrite H1, H2. Qed.

Lemma total_of_ext r r' :
  lists r' = lists r -> zsets r' = zsets r -> total_of r' = total_of r.
Proof. intros H1 H2. rewrite !total_of_sum, !(queue_size_ext _ r r') by assumption. reflexivity. Qed.

Lemma total_of_le r r' :
  (forall p, queue_size p r' <= queue_size p r) -> total_of r' <= total_of r.
Proof.
  intros H. rewrite !total_of_sum.
  pose proof (H URGENT). pose proof (H HIGH). pose proof (H NORMAL). pose proof (H LOW). lia.
Qed.

Lemma active_admitted uid jtype pay prio delay env r q :
  active q (admitted uid jtype pay prio delay env r)
  = if 0 <? delay then active q r
    else if decide (prio = q) then uuid4 env :: active q r else active q r.
Proof.
  unfold admitted. destruct (0 <? delay).
  - reflexivity.
  - exact (active_lpush prio q (uuid4 env) _).
Qed.

Lemma delayed_admitted uid jtype pay prio delay env r q :
  delayed q (admitted uid jtype pay prio delay env r)
  = if 0 <? delay
    then (if decide (prio = q) then <[uuid4 env := due_time env delay]> (delayed q r)
          else delayed q r)
    else delayed q r.
Proof.
  unfold admitted. destruct (0 <? delay).
  - exact (delayed_zadd prio q (uuid4 env) _ _).
  - reflexivity.
Qed.

Lemma size_insert_le (z : gmap string Z) k v : (size (<[k := v]> z) <= S (size z))%nat.
Proof.
  destruct (z !! k) as [x|] eqn:E.
  - rewrite map_size_insert_Some by eauto. lia.
  - rewrite map_size_insert_None by exact E. lia.
Qed.

Lemma queue_size_admitted uid jtype pay prio delay env r q :
  queue_size q (admitted uid jtype pay prio delay env r)
  <= queue_size q r + (if decide (prio = q) then 1 else 0).
Proof.
  rewrite !queue_size_eq, active_admitted, delayed_admitted.
  destruct (0 <? delay), (decide (prio = q)); cbn [length]; try lia.
  pose proof (size_insert_le (delayed q r) (uuid4 env) (due_time env delay)). lia.
Qed.

Lemma total_of_admitted uid jtype pay prio delay env r :
  total_of (admitted uid jtype pay prio delay env r) <= total_of r + 1.
Proof.
  rewrite !total_of_sum.
  pose proof (queue_size_admitted uid jtype pay prio delay env r URGENT) as H1.
  pose proof (queue_size_admitted uid jtype pay prio delay env r HIGH) as H2.
  pose proof (queue_size_admitted uid jtype pay prio delay env r NORMAL) as H3.
  pose proof (queue_size_admitted uid jtype pay prio delay env r LOW) as H4.
  destruct prio;
    repeat match goal with
    | H : context [decide (?a = ?b)] |- _ => destruct (decide (a = b)); try discriminate
    end; lia.
Qed.

Lemma queue_size_promote_queue p ts r q :
  queue_size q (promote_queue p ts r) = queue_size q r.
Proof.
  rewrite !queue_size_eq. unfold promote_queue.
  rewrite active_moves, delayed_moves.
  destruct (decide (p = q)) as [<-|]; [|reflexivity].
  rewrite length_app, length_rev.
  pose proof (size_deletes (ready p ts r) (delayed p r) (NoDup_ready p ts r)) as H.
  rewrite <- H.
  - lia.
  - intros j Hj. apply elem_of_ready in Hj as (s & Hs & _). eauto.
Qed.

Lemma total_of_promoted ts r : total_of (promoted ts r) = total_of r.
Proof.
  unfold promoted, QueuePriority_.members. cbn [fold_left].
  rewrite !total_of_sum, !queue_size_promote_queue. reflexivity.
Qed.

Lemma queue_size_dequeue_from ps timeout env w q :
  queue_size q (redis (fst (dequeue_from ps timeout env w))) <= queue_size q (redis w).
Proof.
  rewrite !queue_size_eq.
  destruct (dequeue_from_spec ps timeout env w) as (Hz & _ & _ & Hp & _).
  unfold delayed. rewrite Hz. specialize (Hp q). apply prefix_length in Hp. lia.
Qed.

Lemma same_queues_refl w : same_queues w w.
Proof. repeat split. Qed.

Lemma same_queues_trans w1 w2 w3 : same_queues w1 w2 -> same_queues w2 w3 -> same_queues w1 w3.
Proof. unfold same_queues. intros (?&?&?) (?&?&?). repeat split; congruence. Qed.

Lemma status_updated_queues jid st error t r :
  lists (status_updated jid st error t r) = lists r
  /\ zsets (status_updated jid st error t r) = zsets r
  /\ dead_letters (status_updated jid st error t r) = dead_letters r.
Proof.
  unfold status_updated. destruct (read_job jid r) as [[job|]|e]; auto.
  apply status_written_queues.
Qed.

Lemma _update_job_status_same_queues jid st error env w :
  same_queues w (fst (_update_job_status jid st error env w)).
Proof.
  rewrite _update_job_status_eq.
  destruct (read_job jid (redis w)) as [[job|]|e]; try apply same_queues_refl.
  cbn [fst]. unfold same_queues. cbn [redis set_redis max_queue_size].
  destruct (status_written_queues jid job st error (now env) (redis w)) as (?&?&?). auto.
Qed.

Lemma final_failure_same_queues jid job error env w :
  same_queues w (fst (final_failure jid job error env w)).
Proof.
  rewrite final_failure_eq.
  destruct (read_job jid (redis w)) as [o|e]; try apply same_queues_refl.
  cbn [fst]. unfold same_queues. cbn [redis set_redis set_stats max_queue_size].
  destruct (status_updated_queues jid FAILED (Some error) (now env) (redis w)) as (?&?&?).
  auto.
Qed.

Lemma complete_job_same_queues jid result env w :
  same_queues w (fst (complete_job jid result env w)).
Proof.
  rewrite complete_job_eq.
  destruct (read_job jid (redis w)) as [o|e]; try apply same_queues_refl.
  cbn [fst]. unfold same_queues. cbn [redis set_redis set_stats max_queue_size].
  destruct (status_updated_queues jid COMPLETED None (now env) (redis w)) as (?&?&?).
  auto.
Qed.

Lemma dequeue_from_config ps timeout env w :
  max_queue_size (fst (dequeue_from ps timeout env w)) = max_queue_size w.
Proof.
  revert w. induction ps as [|p ps IH]; intros w; [reflexivity|].
  rewrite dequeue_from_cons. cbn zeta.
  destruct (last (active p (redis w))) as [jid|]; [|now rewrite IH].
  destruct (read_job jid (redis w)) as [[job|]|e]; [reflexivity | now rewrite IH | reflexivity].
Qed.

Lemma same_queues_total w w' :
  same_queues w w' -> total_of (redis w') = total_of (redis w).
Proof. intros (H1 & H2 & _). now apply total_of_ext. Qed.

(** a call leaves the configured bound alone, and a total within the bound
    stays within it *)
Lemma perform_bound c env w :
  max_queue_size (perform c env w) = max_queue_size w
  /\ (total_of (redis w) <= max_queue_size w ->
      total_of (redis (perform c env w)) <= max_queue_size w).
Proof.
  assert (Henq : forall uid jtype pay prio delay,
    max_queue_size (fst (enqueue_job uid jtype pay prio delay env w)) = max_queue_size w
    /\ (total_of (redis w) <= max_queue_size w ->
        total_of (redis (fst (enqueue_job uid jtype pay prio delay env w)))
        <= max_queue_size w)).
  { intros uid jtype pay prio delay.
    destruct (enqueue_job_cases uid jtype pay prio delay env w)
      as [(reason & -> & _) | [(-> & _) | (-> & _ & Hlt)]];
      cbn [fst redis set_redis set_stats max_queue_size]; split; auto.
    intros _. pose proof (total_of_admitted uid jtype pay prio delay env (redis w)). lia. }
  destruct c as [uid jtype pay prio delay | timeout | jid result | jid error retry];
    cbn [perform].
  - apply Henq.
  - rewrite dequeue_job_eq. split.
    + now rewrite dequeue_from_config.
    + intros Hle. etransitivity; [apply total_of_le; intros p; apply queue_size_dequeue_from|].
      cbn [redis set_redis]. now rewrite total_of_promoted.
  - destruct (complete_job_same_queues jid result env w) as (H1 & H2 & H3).
    split; [exact H3|]. intros Hle. now rewrite (total_of_ext (redis w)).
  - rewrite fail_job_eq.
    destruct (read_job jid (redis w)) as [[job0|]|e]; [| auto | auto].
    cbn zeta.
    set (job := with_retry_count job0 (retry_count job0 + 1)).
    assert (Hfin : forall w1,
      max_queue_size w1 = max_queue_size w ->
      (total_of (redis w) <= max_queue_size w -> total_of (redis w1) <= max_queue_size w) ->
      forall w2, same_queues w1 w2 ->
      max_queue_size w2 = max_queue_size w
      /\ (total_of (redis w) <= max_queue_size w -> total_of (redis w2) <= max_queue_size w)).
    { intros w1 Hm Ht w2 Hs. split.
      - destruct Hs as (_ & _ & ->). exact Hm.
      - intros Hle. rewrite (same_queues_total w1 w2 Hs). now apply Ht. }
    destruct (retry && _).
    + destruct (Henq (user_id job) (job_type job) (payload job) (priority job)
                     (backoff (retry_count job))) as (Hm & Ht).
      rewrite enqueue_job_eq in Hm, Ht.
      destruct (enqueue_result _ _ _ _ _ env w) as [w1 [[[[|] reason] nid]|e]];
        cbn [fst] in Hm, Ht.
      * apply (Hfin w1 Hm Ht). apply _update_job_status_same_queues.
      * apply (Hfin w1 Hm Ht). apply final_failure_same_queues.
      * cbn [fst]. auto.
    + apply (Hfin w); auto. apply final_failure_same_queues.
Qed.

Lemma perform_all_bound trace w :
  total_of (redis w) <= max_queue_size w ->
  max_queue_size (perform_all trace w) = max_queue_size w
  /\ total_of (redis (perform_all trace w)) <= max_queue_size w.
Proof.
  revert w. induction trace as [|[env c] trace IH]; intros w Hle; [auto|].
  cbn [perform_all]. destruct (perform_bound c env w) as (Hm & Ht).
  destruct (IH (perform c env w)) as (Hm' & Ht'); [rewrite Hm; auto|].
  rewrite Hm in Hm', Ht'. auto.
Qed.



Lemma hashes_promote_queue p ts r : hashes (promote_queue p ts r) = hashes r.
Proof.
  unfold promote_queue. generalize (ready p ts r). intros l.
  revert r. induction l as [|j l IH]; intros r; [reflexivity|].
  cbn [fold_left]. now rewrite IH.
Qed.

Lemma hashes_promoted ts r : hashes (promoted ts r) = hashes r.
Proof.
  unfold promoted, QueuePriority_.members. cbn [fold_left].
  now rewrite !hashes_promote_queue.
Qed.


















(** C3 (counterexample).  The queues hold ten jobs, the bound is ten, and
    the eleventh request of the same user in that minute is refused with the
    per-minute reason of the rate limiter, not with the queue-full reason. *)
Lemma full_queue_call_refused_for_rate_limit :
  max_queue_size Burst.ten_requests <= total_of (redis Burst.ten_requests)
  /\ enqueue_job "alice" "image" Scenario.prompt NORMAL 0
                 (Scenario.at_second 10 (Burst.id_of 10)) Burst.ten_requests
     = (Burst.ten_requests, Ok (false, minute_reason, None))
  /\ minute_reason <> queue_full_reason.
Proof.
  split; [vm_compute; discriminate|]. split; [vm_compute; reflexivity|]. discriminate.
Qed.

(** C3 (amended).  While the total number of queued items (active lists and
    delayed sets of all priorities) is at least [max_queue_size], every
    [enqueue_job] call returns [(false, reason, None)] and leaves the store as
    it was: no job record, nothing pushed.  The reason is the rate limiter's
    when it rejects the user, and the queue-full reason otherwise, in which
    case the overflow counter goes up.  Consequently no sequence of
    [enqueue_job], [dequeue_job], [complete_job] and [fail_job] calls takes the
    total above [max_queue_size]. *)
Theorem full_queue_admits_nothing uid jtype pay prio delay env w :
  max_queue_size w <= total_of (redis w) ->
  let w' := fst (enqueue_job uid jtype pay prio delay env w) in
  (exists reason,
     snd (enqueue_job uid jtype pay prio delay env w) = Ok (false, reason, None)
     /\ (snd (check_rate_limit uid env w) = Ok (false, reason)
         \/ (fst (rate_verdict uid (now env) (limits w) (redis w)) = true
             /\ reason = queue_full_reason
             /\ queue_overflows (stats w') = queue_overflows (stats w) + 1)))
  /\ redis w' = redis w
  /\ (forall trace w0,
        total_of (redis w0) <= max_queue_size w0 ->
        total_of (redis (perform_all trace w0)) <= max_queue_size w0).
Proof.
  intros Hfull. cbn zeta. split; [|split].
  - destruct (enqueue_job_cases uid jtype pay prio delay env w)
      as [(reason & -> & Hv) | [(-> & Hv & _) | (_ & _ & Hlt)]]; [| |lia].
    + exists reason. split; [reflexivity|]. left. now rewrite check_rate_limit_eq, Hv.
    + exists queue_full_reason. split; [reflexivity|]. right. auto.
  - destruct (enqueue_job_cases uid jtype pay prio delay env w)
      as [(reason & -> & Hv) | [(-> & Hv & _) | (_ & _ & Hlt)]]; [reflexivity|reflexivity|lia].
  - intros trace w0 Hle. now apply perform_all_bound.
Qed.

Lemma full_queue_admits_nothing_witness :
  max_queue_size Stored.busy_and_full <= total_of (redis Stored.busy_and_full)
  /\ redis (fst (enqueue_job "bob" "image" Scenario.prompt HIGH 0
                   (Scenario.at_second 40 Scenario.id_c) Stored.busy_and_full))
     = redis Stored.busy_and_full.
Proof.
  assert (H : max_queue_size Stored.busy_and_full <= total_of (redis Stored.busy_and_full))
    by (vm_compute; discriminate).
  split; [exact H|].
  apply (full_queue_admits_nothing "bob" "image" Scenario.prompt HIGH 0
           (Scenario.at_second 40 Scenario.id_c) Stored.busy_and_full H).
Defined.







(** C4 (the code breaks this claim).  Job A is enqueued at NORMAL priority
    and then job B at URGENT priority, without delay, into an empty manager.
    The next [dequeue_job] returns [None], not B: it pops B, cannot read its
    record, goes on to pop A, cannot read that one either, and leaves both
    lists empty and both jobs marked [queued]. *)
Theorem urgent_job_is_popped_and_dropped :
  let w1 := fst (enqueue_job "alice" "image" Scenario.prompt NORMAL 0
                   (Scenario.at_second 0 Scenario.id_a) Scenario.fresh) in
  let w2 := fst (enqueue_job "bob" "image" Scenario.prompt URGENT 0
                   (Scenario.at_second 1 Scenario.id_b) w1) in
  let w3 := fst (dequeue_job 5 (Scenario.at_second 2 Scenario.id_c) w2) in
  active URGENT (redis w2) = [Scenario.id_b]
  /\ active NORMAL (redis w2) = [Scenario.id_a]
  /\ snd (dequeue_job 5 (Scenario.at_second 2 Scenario.id_c) w2) = Ok None
  /\ active URGENT (redis w3) = []
  /\ active NORMAL (redis w3) = []
  /\ R.hget_status (job_key Scenario.id_a) (redis w3) = Some "queued"%string
  /\ R.hget_status (job_key Scenario.id_b) (redis w3) = Some "queued"%string.
Proof. vm_compute. repeat split; reflexivity. Qed.

(** C8 (the code breaks this claim).  Three workers have dequeued the three
    jobs of a user, and the manager has marked the three records PROCESSING.
    The limit of concurrent jobs is three.  [get_concurrent_jobs] counts the
    keys that match [job:*:user:{user_id}:status:processing]; the records are
    kept under [job:{job_id}], so it counts none, [check_rate_limit] answers
    [(True, "OK")], and a fourth job of the user is admitted. *)
Theorem three_processing_jobs_pass_the_limit :
  let env := Scenario.at_second 4 Workers.id_d in
  let w := Workers.three_taken in
  processing_jobs_of "alice" (redis w) = 3
  /\ concurrent_jobs (limits w) = 3
  /\ snd (get_concurrent_jobs "alice" env w) = Ok 0
  /\ snd (check_rate_limit "alice" env w) = Ok (true, "OK"%string)
  /\ snd (enqueue_job "alice" "image" Scenario.prompt NORMAL 0 env w)
     = Ok (true, "Job queued successfully"%string, Some Workers.id_d).
Proof. vm_compute. repeat split; reflexivity. Qed.

Lemma star_suffix p s :
  star p s = true -> exists pre t, s = pre ++ t /\ Glob.go p Glob.Top t = true.
Proof.
  induction s as [|c s IH]; cbn; intros H.
  - rewrite orb_false_r in H. now exists [], [].
  - apply orb_true_iff in H as [H|H].
    + now exists [], (c :: s).
    + destruct (IH H) as (pre & t & -> & Ht). now exists (c :: pre), t.
Qed.

Lemma list_ascii_app a b :
  list_ascii_of_string (a +:+ b) = list_ascii_of_string a ++ list_ascii_of_string b.
Proof. induction a as [|c a IH]; [reflexivity|]. simpl. f_equal. exact IH. Qed.

(** a key that the pattern of [get_concurrent_jobs] matches starts with
    [job:] and goes on with [:u] somewhere after it *)
Lemma concurrent_pattern_shape uid key :
  Glob.matches (concurrent_pattern uid) key = true ->
  exists pre t, list_ascii_of_string key
                = ["j"; "o"; "b"; ":"]%char ++ pre ++ [":"; "u"]%char ++ t.
Proof.
  unfold Glob.matches, concurrent_pattern. rewrite list_ascii_app.
  generalize (list_ascii_of_string (uid +:+ ":status:processing")). intros rest.
  generalize (list_ascii_of_string key). intros s. cbn [list_ascii_of_string app].
  intros H.
  destruct s as [|c1 [|c2 [|c3 [|c4 s]]]]; cbn [Glob.go andb] in H; try discriminate H;
    repeat (apply andb_true_iff in H as [? H]); try discriminate H.
  repeat match goal with
  | E : Ascii.eqb _ _ = true |- _ => apply Ascii.eqb_eq in E; subst
  end.
  change (star (":" :: "u" :: "s" :: "e" :: "r" :: ":" :: rest)%char s = true) in H.
  apply star_suffix in H as (pre & t & -> & Ht).
  destruct t as [|d1 [|d2 t]]; cbn [Glob.go andb] in Ht; try discriminate Ht;
    repeat (apply andb_true_iff in Ht as [? Ht]); try discriminate Ht.
  repeat match goal with
  | E : Ascii.eqb _ _ = true |- _ => apply Ascii.eqb_eq in E; subst
  end.
  now exists pre, t.
Qed.

Lemma job_key_never_counts uid jid :
  colon_free jid -> Glob.matches (concurrent_pattern uid) (job_key jid) = false.
Proof.
  intros Hc. destruct (Glob.matches _ _) eqn:E; [|reflexivity]. exfalso.
  apply concurrent_pattern_shape in E as (pre & t & E).
  unfold job_key in E. rewrite list_ascii_app in E. cbn in E. injection E as E.
  apply Hc. rewrite E. apply elem_of_app. right. now left.
Qed.

Lemma result_key_never_counts uid jid :
  colon_free jid -> Glob.matches (concurrent_pattern uid) (result_key jid) = false.
Proof.
  intros Hc. destruct (Glob.matches _ _) eqn:E; [|reflexivity]. exfalso.
  apply concurrent_pattern_shape in E as (pre & t & E).
  unfold result_key in E. rewrite !list_ascii_app in E. cbn in E. injection E as E.
  revert pre E. unfold colon_free in Hc.
  induction (list_ascii_of_string jid) as [|c l IH]; intros pre E.
  - cbn in E. destruct pre as [|x pre]; cbn in E; [discriminate E|].
    injection E as _ E.
    assert (Hin : ":"%char ∈ ["r"; "e"; "s"; "u"; "l"; "t"]%char).
    { rewrite E. apply elem_of_app. right. now left. }
    repeat (apply elem_of_cons in Hin as [Hin|Hin]; [discriminate Hin|]).
    now apply elem_of_nil in Hin.
  - destruct pre as [|x pre]; cbn in E.
    + injection E as -> _. apply Hc. now left.
    + injection E as _ E. apply (IH (fun H => Hc (list_elem_of_further _ _ _ H)) pre E).
Qed.

Lemma other_key_never_counts uid key :
  (forall rest, key <> "job:" +:+ rest) -> Glob.matches (concurrent_pattern uid) key = false.
Proof.
  intros Hk. destruct (Glob.matches _ _) eqn:E; [|reflexivity]. exfalso.
  apply concurrent_pattern_shape in E as (pre & t & E).
  apply (Hk (string_of_list_ascii (pre ++ [":"; "u"]%char ++ t))).
  rewrite <- (string_of_list_ascii_of_string key), E. reflexivity.
Qed.

Lemma manager_key_never_counts uid key :
  manager_key key -> Glob.matches (concurrent_pattern uid) key = false.
Proof.
  intros [jid H | jid H | k H];
    auto using job_key_never_counts, result_key_never_counts, other_key_never_counts.
Qed.

(** in a store that holds keys of the manager only, no user has a
    concurrent job, whatever the status of the job records *)
Lemma get_concurrent_jobs_is_zero uid env w :
  (forall key, key ∈ R.all_keys (redis w) -> manager_key key) ->
  get_concurrent_jobs uid env w = (w, Ok 0).
Proof.
  intros H. unfold get_concurrent_jobs, bind, redis_read, ret.
  assert (E : R.keys (concurrent_pattern uid) (redis w) = []).
  { unfold R.keys. induction (R.all_keys (redis w)) as [|k l IH]; [reflexivity|].
    cbn. rewrite (manager_key_never_counts uid k) by (apply H; now left).
    apply IH. intros key Hin. apply H. now right. }
  now rewrite E.
Qed.

Module ModelCacheFacts.
Import ModelCache ModelCacheSpec.

Section LRU.
Context {Model : Type}.
Implicit Types c : EnhancedModelCache Model.

Lemma lru_loop_room fuel c :
  Z.of_nat (length (cache c)) < max_models c -> lru_loop fuel c = Some (Ok c).
Proof.
  intros H. destruct fuel; simpl;
    destruct (Z.leb_spec (max_models c) (Z.of_nat (length (cache c)))); auto; lia.
Qed.

Lemma put_room model_id model g c :
  check_memory_pressure g = false ->
  Z.of_nat (length (cache c)) < max_models c ->
  put model_id model g c = Some (Ok (stored model_id model g c)).
Proof.
  intros Hp Hroom. unfold put, _ensure_cache_space.
  rewrite Hp, lru_loop_room by assumption. reflexivity.
Qed.

Lemma put_evict_one model_id model g c oldest c' :
  check_memory_pressure g = false ->
  max_models c <= Z.of_nat (length (cache c)) ->
  min_key (usage_times c) = Ok oldest ->
  _evict oldest c = Ok c' ->
  Z.of_nat (length (cache c')) < max_models c' ->
  put model_id model g c = Some (Ok (stored model_id model g c')).
Proof.
  intros Hp Hfull Hmin Hev Hroom. unfold put, _ensure_cache_space.
  rewrite Hp. cbn [lru_loop].
  destruct (Z.leb_spec (max_models c) (Z.of_nat (length (cache c)))); [|lia].
  rewrite Hmin. cbn [try_bind]. rewrite Hev, lru_loop_room by assumption.
  reflexivity.
Qed.

(** C9.  A cache for two models, without memory pressure: [put(A)],
    [put(B)], [get(A)] at a time later than that of [put(B)], [put(C)], the
    three keys distinct.  [get(A)] returns the model of A and gives A the
    time of the call.  [put(C)] evicts B, whose time is then the oldest, and
    the cache holds A and C: the first key inserted stays. *)
Theorem get_refreshes_and_put_evicts_least_recent
    (a b c : string) (ma mb mc : Model) (ga gb gc : Gpu) (tget : Z) :
  a <> b -> a <> c -> b <> c ->
  check_memory_pressure ga = false ->
  check_memory_pressure gb = false ->
  check_memory_pressure gc = false ->
  clock gb < tget ->
  exists c1 c2 c3 c4 : EnhancedModelCache Model,
    put a ma ga (new_cache 2) = Some (Ok c1)
    /\ put b mb gb c1 = Some (Ok c2)
    /\ get a tget c2 = (c3, Some ma)
    /\ usage_times c3 = [(a, tget); (b, clock gb)]
    /\ put c mc gc c3 = Some (Ok c4)
    /\ cache c4 = [(a, ma); (c, mc)]
    /\ usage_times c4 = [(a, tget); (c, clock gc)]
    /\ Dict.get b (cache c4) = None.
Proof.
  intros Hab Hac Hbc Pa Pb Pc Hlt.
  assert (Eba : String.eqb b a = false) by (apply String.eqb_neq; congruence).
  assert (Eca : String.eqb c a = false) by (apply String.eqb_neq; congruence).
  assert (Ebc : String.eqb b c = false) by (apply String.eqb_neq; congruence).
  assert (Eaa : String.eqb a a = true) by apply String.eqb_refl.
  assert (Ebb : String.eqb b b = true) by apply String.eqb_refl.
  assert (Hlt' : (clock gb <? tget) = true) by now apply Z.ltb_lt.
  eexists _, _, _, _.
  split. { apply put_room; [assumption | simpl; lia]. }
  split. { apply put_room; [assumption | simpl; lia]. }
  split. { unfold get. repeat (simpl; rewrite ?Eba, ?Eaa). reflexivity. }
  split. { repeat (simpl; rewrite ?Eba, ?Eaa). reflexivity. }
  split.
  { eapply put_evict_one with (oldest := b); [assumption | simpl; lia | | | ].
    - repeat (simpl; rewrite ?Eba, ?Eaa, ?Hlt'). reflexivity.
    - unfold _evict, del, Dict.mem. repeat (simpl; rewrite ?Eba, ?Eaa, ?Ebb). reflexivity.
    - repeat (simpl; rewrite ?Eba, ?Eaa, ?Ebb). simpl. lia. }
  repeat (simpl; rewrite ?Eba, ?Eaa, ?Ebb, ?Eca, ?Ebc). auto.
Qed.

End LRU.

Lemma get_refreshes_and_put_evicts_least_recent_witness :
  ("sdxl-base" <> "sdxl-refiner" /\ "sdxl-base" <> "pixel-art" /\ "sdxl-refiner" <> "pixel-art"
   /\ check_memory_pressure (calm 100) = false /\ check_memory_pressure (calm 200) = false
   /\ check_memory_pressure (calm 400) = false /\ clock (calm 200) < 300)%string
  /\ exists c1 c2 c3 c4 : EnhancedModelCache nat,
       put "sdxl-base" 1%nat (calm 100) (new_cache 2) = Some (Ok c1)
       /\ put "sdxl-refiner" 2%nat (calm 200) c1 = Some (Ok c2)
       /\ get "sdxl-base" 300 c2 = (c3, Some 1%nat)
       /\ usage_times c3 = [("sdxl-base"%string, 300); ("sdxl-refiner"%string, clock (calm 200))]
       /\ put "pixel-art" 3%nat (calm 400) c3 = Some (Ok c4)
       /\ cache c4 = [("sdxl-base"%string, 1%nat); ("pixel-art"%string, 3%nat)]
       /\ usage_times c4 = [("sdxl-base"%string, 300); ("pixel-art"%string, clock (calm 400))]
       /\ Dict.get "sdxl-refiner" (cache c4) = None.
Proof.
  split.
  - repeat split; try discriminate; reflexivity.
  - apply (get_refreshes_and_put_evicts_least_recent
             "sdxl-base" "sdxl-refiner" "pixel-art" 1%nat 2%nat 3%nat
             (calm 100) (calm 200) (calm 400) 300);
      try discriminate; reflexivity.
Defined.

End ModelCacheFacts.

(** ** What follows from the unreadable records *)

(** A retry is a new job whose count starts from zero; the failed job is
    marked CANCELLED and nothing reaches the dead-letter list.  The count
    that [fail_job] increments is never stored. *)
Lemma retry_starts_from_zero jid error env w job msg nid :
  snd (_get_job_data jid env w) = Ok (Some job) ->
  retry_count job + 1 <= max_retries job ->
  uuid4 env <> jid ->
  snd (enqueue_job (user_id job) (job_type job) (payload job) (priority job)
                   (backoff (retry_count job + 1)) env w) = Ok (true, msg, nid) ->
  let w' := fst (fail_job jid error true env w) in
  let retried := new_job (user_id job) (job_type job) (payload job) (priority job)
                         (backoff (retry_count job + 1)) env in
  R.hget_status (job_key jid) (redis w') = Some (JobStatus_.value CANCELLED)
  /\ R.hget_data (job_key (uuid4 env)) (redis w') = Some (dumps_job retried)
  /\ retry_count retried = 0
  /\ dead_letters (redis w') = dead_letters (redis w).
Proof.
  rewrite snd_get_job_data. intros Hread Hleft Hfresh Hadm. cbn zeta.
  rewrite fail_job_eq, Hread. cbn zeta.
  change (retry_count (with_retry_count job (retry_count job + 1))) with (retry_count job + 1).
  change (max_retries (with_retry_count job (retry_count job + 1))) with (max_retries job).
  change (user_id (with_retry_count job (retry_count job + 1))) with (user_id job).
  change (job_type (with_retry_count job (retry_count job + 1))) with (job_type job).
  change (payload (with_retry_count job (retry_count job + 1))) with (payload job).
  change (priority (with_retry_count job (retry_count job + 1))) with (priority job).
  assert (Hle : (retry_count job + 1 <=? max_retries job) = true) by now apply Z.leb_le.
  rewrite Hle. cbn [andb].
  destruct (enqueue_job_cases (user_id job) (job_type job) (payload job) (priority job)
              (backoff (retry_count job + 1)) env w)
    as [(reason & E & _) | [(E & _) | (E & _)]];
    rewrite E in Hadm; cbn [snd] in Hadm; try discriminate Hadm.
  rewrite enqueue_job_eq in E. rewrite E.
  rewrite _update_job_status_eq. cbn [redis set_redis set_stats].
  rewrite read_job_admitted_other, Hread by exact Hfresh. cbn [fst redis set_redis].
  split; [apply hget_status_status_written|].
  unfold status_written. cbn [JobStatus_.closes].
  split; [|split; [reflexivity|]].
  - unfold R.hget_data. cbn [hashes R.srem R.set_sets R.hset_status R.set_hashes].
    rewrite lookup_insert_ne by (intros Hk; apply job_key_inj in Hk; congruence).
    rewrite hashes_admitted, lookup_insert_eq. reflexivity.
  - cbn [dead_letters R.srem R.set_sets R.hset_status R.set_hashes].
    unfold admitted. destruct (0 <? backoff (retry_count job + 1)); reflexivity.
Qed.

Lemma unreadable_empty : unreadable_store R.empty.
Proof. intros jid. reflexivity. Qed.

Lemma unreadable_ext r r' : hashes r' = hashes r -> unreadable_store r -> unreadable_store r'.
Proof. intros E H jid. rewrite (read_job_hashes jid r' r E). apply H. Qed.

Lemma unreadable_admitted uid jtype pay prio delay env r :
  unreadable_store r -> unreadable_store (admitted uid jtype pay prio delay env r).
Proof.
  intros H jid. destruct (decide (uuid4 env = jid)) as [<-|N].
  - apply read_job_admitted.
  - rewrite read_job_admitted_other by exact N. apply H.
Qed.

(** with unreadable records only, the pop loop takes one id off every list it
    visits and returns [None] *)
Lemma dequeue_from_unreadable ps timeout env w :
  unreadable_store (redis w) ->
  snd (dequeue_from ps timeout env w) = Ok None
  /\ hashes (redis (fst (dequeue_from ps timeout env w))) = hashes (redis w).
Proof.
  revert w. induction ps as [|p ps IH]; intros w H; [auto|].
  rewrite dequeue_from_cons. cbn zeta.
  set (w1 := set_redis (fst (R.brpop (queue_keys p) timeout (redis w))) w).
  assert (Hh : hashes (redis w1) = hashes (redis w)) by apply brpop_frame.
  assert (H1 : unreadable_store (redis w1)) by (eapply unreadable_ext; eauto).
  destruct (IH w1 H1) as (I1 & I2).
  assert (Hrec : snd (dequeue_from ps timeout env w1) = Ok None
                 /\ hashes (redis (fst (dequeue_from ps timeout env w1))) = hashes (redis w))
    by (split; congruence).
  destruct (last (active p (redis w))) as [jid|]; [|exact Hrec].
  now rewrite (H jid).
Qed.

Lemma perform_unreadable c env w :
  unreadable_store (redis w) -> unreadable_store (redis (perform c env w)).
Proof.
  intros H.
  destruct c as [uid jtype pay prio delay | timeout | jid result | jid error retry];
    cbn [perform].
  - destruct (enqueue_job_cases uid jtype pay prio delay env w)
      as [(reason & -> & _) | [(-> & _) | (-> & _)]]; cbn [fst redis set_redis set_stats];
      auto using unreadable_admitted.
  - rewrite dequeue_job_eq.
    assert (Hp : unreadable_store
                   (redis (set_redis (promoted (time_time env) (redis w)) w))).
    { cbn [redis set_redis]. eapply unreadable_ext; [apply hashes_promoted | exact H]. }
    eapply unreadable_ext; [apply (dequeue_from_unreadable pop_order timeout env _ Hp)|].
    exact Hp.
  - rewrite complete_job_eq, (H jid). cbn [fst redis set_redis set_stats].
    unfold status_updated. rewrite (H jid). eapply unreadable_ext; [|exact H]. reflexivity.
  - rewrite fail_job_eq, (H jid). exact H.
Qed.

Lemma perform_all_unreadable trace w :
  unreadable_store (redis w) -> unreadable_store (redis (perform_all trace w)).
Proof.
  revert w. induction trace as [|[env c] trace IH]; intros w H; [exact H|].
  cbn [perform_all]. apply IH. now apply perform_unreadable.
Qed.

(** Starting from an empty store, whatever calls are made, [dequeue_job]
    returns [None], [fail_job] changes nothing and [_update_job_status]
    changes nothing: no record the manager has written can be read. *)
Lemma manager_never_reads_a_job trace size env :
  let w := perform_all trace (new_manager R.empty size) in
  (forall timeout, snd (dequeue_job timeout env w) = Ok None)
  /\ (forall jid error retry, fail_job jid error retry env w = (w, Ok tt))
  /\ (forall jid st error, _update_job_status jid st error env w = (w, Ok tt)).
Proof.
  cbn zeta.
  assert (H : unreadable_store (redis (perform_all trace (new_manager R.empty size))))
    by (apply perform_all_unreadable, unreadable_empty).
  split; [|split].
  - intros timeout. rewrite dequeue_job_eq. apply dequeue_from_unreadable.
    cbn [redis set_redis]. eapply unreadable_ext; [apply hashes_promoted | exact H].
  - intros jid error retry. now rewrite fail_job_eq, (H jid).
  - intros jid st error. now rewrite _update_job_status_eq, (H jid).
Qed.

(** ** The keys of the manager *)

Lemma insert_keys {V : Type} (P : string -> Prop) (m : gmap string V) k0 v :
  (forall k, is_Some (m !! k) -> P k) -> P k0 ->
  forall k, is_Some (<[k0 := v]> m !! k) -> P k.
Proof.
  intros H H0 k Hk. destruct (decide (k0 = k)) as [<-|N]; [exact H0|].
  rewrite lookup_insert_ne in Hk by exact N. now apply H.
Qed.

Lemma delete_keys {V : Type} (P : string -> Prop) (m : gmap string V) k0 :
  (forall k, is_Some (m !! k) -> P k) ->
  forall k, is_Some (delete k0 m !! k) -> P k.
Proof.
  intros H k Hk. destruct (decide (k0 = k)) as [<-|N].
  - rewrite lookup_delete_eq in Hk. now destruct Hk.
  - rewrite lookup_delete_ne in Hk by exact N. now apply H.
Qed.

Lemma other_prefix key :
  match key with
  | String "j" (String "o" (String "b" (String ":" _))) => False
  | _ => True
  end ->
  manager_key key.
Proof.
  intros H. apply key_other. intros rest ->. exact H.
Qed.

Lemma manager_key_queue p : manager_key (queue_keys p).
Proof. destruct p; now apply other_prefix. Qed.

Lemma manager_key_delayed p : manager_key (delayed_key p).
Proof. destruct p; now apply other_prefix. Qed.

Lemma manager_key_user uid : manager_key (user_jobs_key uid).
Proof. now apply other_prefix. Qed.

Lemma manager_key_minute uid t : manager_key (minute_key uid t).
Proof. now apply other_prefix. Qed.

Lemma manager_key_hour uid t : manager_key (hour_key uid t).
Proof. now apply other_prefix. Qed.

Lemma manager_key_day uid t : manager_key (day_key uid t).
Proof. now apply other_prefix. Qed.

Lemma manager_key_dlq : manager_key R.dlq_key.
Proof. now apply other_prefix. Qed.

Lemma manager_keys_empty : manager_keys R.empty.
Proof.
  repeat split; intros k Hk; cbn in Hk; rewrite lookup_empty in Hk; now destruct Hk.
Qed.

Lemma manager_keys_all r key : manager_keys r -> key ∈ R.all_keys r -> manager_key key.
Proof.
  intros (H1 & H2 & H3 & H4 & H5 & H6). unfold R.all_keys.
  rewrite !elem_of_app, !elem_of_elements, !elem_of_dom.
  intros [H|[H|[H|[H|[H|[H|H]]]]]]; auto.
  destruct (dead_letters r); [now apply elem_of_nil in H|].
  apply elem_of_cons in H as [->|H]; [apply manager_key_dlq | now apply elem_of_nil in H].
Qed.

Lemma manager_keys_hset_job key data uid st r :
  manager_key key -> manager_keys r -> manager_keys (R.hset_job key data uid st r).
Proof.
  intros Hk (H1 & H2 & H3 & H4 & H5 & H6). repeat split; try assumption.
  now apply insert_keys.
Qed.

Lemma manager_keys_hset_status key data st r :
  manager_key key -> manager_keys r -> manager_keys (R.hset_status key data st r).
Proof.
  intros Hk (H1 & H2 & H3 & H4 & H5 & H6). repeat split; try assumption.
  now apply insert_keys.
Qed.

Lemma manager_keys_incr key r :
  manager_key key -> manager_keys r -> manager_keys (R.incr key r).
Proof.
  intros Hk (H1 & H2 & H3 & H4 & H5 & H6). repeat split; try assumption.
  now apply insert_keys.
Qed.

Lemma manager_keys_set_result key v r :
  manager_key key -> manager_keys r -> manager_keys (R.set_result key v r).
Proof.
  intros Hk (H1 & H2 & H3 & H4 & H5 & H6). repeat split; try assumption.
  now apply insert_keys.
Qed.

Lemma manager_keys_lpush key v r :
  manager_key key -> manager_keys r -> manager_keys (R.lpush key v r).
Proof.
  intros Hk (H1 & H2 & H3 & H4 & H5 & H6). repeat split; try assumption.
  now apply insert_keys.
Qed.

Lemma manager_keys_zadd key v s r :
  manager_key key -> manager_keys r -> manager_keys (R.zadd key v s r).
Proof.
  intros Hk (H1 & H2 & H3 & H4 & H5 & H6). repeat split; try assumption.
  now apply insert_keys.
Qed.

Lemma manager_keys_zrem key v r :
  manager_key key -> manager_keys r -> manager_keys (R.zrem key v r).
Proof.
  intros Hk (H1 & H2 & H3 & H4 & H5 & H6). repeat split; try assumption.
  cbn [zsets R.zrem R.set_zsets]. unfold R.store_zset.
  destruct (decide (_ = ∅)); [now apply delete_keys | now apply insert_keys].
Qed.

Lemma manager_keys_sadd key v r :
  manager_key key -> manager_keys r -> manager_keys (R.sadd key v r).
Proof.
  intros Hk (H1 & H2 & H3 & H4 & H5 & H6). repeat split; try assumption.
  now apply insert_keys.
Qed.

Lemma manager_keys_srem key v r :
  manager_key key -> manager_keys r -> manager_keys (R.srem key v r).
Proof.
  intros Hk (H1 & H2 & H3 & H4 & H5 & H6). repeat split; try assumption.
  cbn [sets R.srem R.set_sets]. destruct (sets r !! key); [|assumption].
  destruct (decide (_ = ∅)); [now apply delete_keys | now apply insert_keys].
Qed.

Lemma manager_keys_brpop key timeout r :
  manager_key key -> manager_keys r -> manager_keys (fst (R.brpop key timeout r)).
Proof.
  intros Hk H. unfold R.brpop. destruct (last _); [|exact H]. cbn [fst].
  destruct H as (H1 & H2 & H3 & H4 & H5 & H6). repeat split; try assumption.
  cbn [lists R.set_lists]. unfold R.store_list.
  destruct (removelast _); [now apply delete_keys | now apply insert_keys].
Qed.

Lemma manager_keys_dead_lettered job error t r :
  manager_keys r -> manager_keys (dead_lettered job error t r).
Proof. intros H. exact H. Qed.

Lemma manager_keys_admitted uid jtype pay prio delay env r :
  colon_free (uuid4 env) -> manager_keys r ->
  manager_keys (admitted uid jtype pay prio delay env r).
Proof.
  intros Hc H. unfold admitted.
  apply manager_keys_sadd; [apply manager_key_user|].
  apply manager_keys_incr; [apply manager_key_day|].
  apply manager_keys_incr; [apply manager_key_hour|].
  apply manager_keys_incr; [apply manager_key_minute|].
  assert (H1 : manager_keys (R.hset_job (job_key (uuid4 env))
                 (dumps_job (new_job uid jtype pay prio delay env)) uid "queued" r))
    by (apply manager_keys_hset_job; [now apply key_job | exact H]).
  destruct (0 <? delay).
  - apply manager_keys_zadd; [apply manager_key_delayed | exact H1].
  - apply manager_keys_lpush; [apply manager_key_queue | exact H1].
Qed.

Lemma read_job_key jid r job :
  read_job jid r = Ok (Some job) -> is_Some (hashes r !! job_key jid).
Proof.
  unfold read_job, R.hget_data. destruct (hashes r !! job_key jid); [eauto|].
  intros H. discriminate H.
Qed.

Lemma manager_keys_status_written jid job st error t r :
  read_job jid r = Ok (Some job) -> manager_keys r ->
  manager_keys (status_written jid job st error t r).
Proof.
  intros Hr H. unfold status_written.
  assert (Hk : manager_key (job_key jid))
    by (apply (proj1 H); eapply read_job_key; eauto).
  assert (H1 : manager_keys (R.hset_status (job_key jid)
                 (dumps_job (updated_job job st error t)) (JobStatus_.value st) r))
    by now apply manager_keys_hset_status.
  destruct (JobStatus_.closes st); [|exact H1].
  apply manager_keys_srem; [apply manager_key_user | exact H1].
Qed.

Lemma manager_keys_status_updated jid st error t r :
  manager_keys r -> manager_keys (status_updated jid st error t r).
Proof.
  intros H. unfold status_updated.
  destruct (read_job jid r) as [[job|]|e] eqn:E; try exact H.
  now apply manager_keys_status_written.
Qed.

Lemma manager_keys_moves p l r :
  manager_keys r -> manager_keys (fold_left (move p) l r).
Proof.
  revert r. induction l as [|jid l IH]; intros r H; [exact H|].
  cbn [fold_left]. apply IH. unfold move.
  apply manager_keys_zrem; [apply manager_key_delayed|].
  apply manager_keys_lpush; [apply manager_key_queue | exact H].
Qed.

Lemma manager_keys_promoted ts r : manager_keys r -> manager_keys (promoted ts r).
Proof.
  intros H. unfold promoted, QueuePriority_.members, promote_queue. cbn [fold_left].
  repeat apply manager_keys_moves. exact H.
Qed.

Lemma manager_keys_dequeue_from ps timeout env w :
  manager_keys (redis w) -> manager_keys (redis (fst (dequeue_from ps timeout env w))).
Proof.
  revert w. induction ps as [|p ps IH]; intros w H; [exact H|].
  rewrite dequeue_from_cons. cbn zeta.
  set (w1 := set_redis (fst (R.brpop (queue_keys p) timeout (redis w))) w).
  assert (H1 : manager_keys (redis w1))
    by (apply manager_keys_brpop; [apply manager_key_queue | exact H]).
  destruct (last (active p (redis w))) as [jid|]; [|now apply IH].
  destruct (read_job jid (redis w)) as [[job|]|e] eqn:E; [| now apply IH | exact H1].
  cbn [fst redis set_redis]. apply manager_keys_status_written; [|exact H1].
  rewrite <- E. apply read_job_hashes. apply brpop_frame.
Qed.

Lemma manager_keys_perform c env w :
  tame (env, c) -> manager_keys (redis w) -> manager_keys (redis (perform c env w)).
Proof.
  intros (Hu & Hc) H. cbn [fst snd] in Hu, Hc.
  assert (Henq : forall uid jtype pay prio delay,
            manager_keys (redis (fst (enqueue_job uid jtype pay prio delay env w)))).
  { intros uid jtype pay prio delay.
    destruct (enqueue_job_cases uid jtype pay prio delay env w)
      as [(reason & -> & _) | [(-> & _) | (-> & _)]]; cbn [fst redis set_redis set_stats];
      auto using manager_keys_admitted. }
  assert (Hfin : forall jid job error w1, manager_keys (redis w1) ->
            manager_keys (redis (fst (final_failure jid job error env w1)))).
  { intros jid job error w1 H1. rewrite final_failure_eq.
    destruct (read_job jid (redis w1)) as [o|e]; [|exact H1].
    cbn [fst redis set_redis set_stats].
    apply manager_keys_dead_lettered. now apply manager_keys_status_updated. }
  assert (Hupd : forall jid st error w1, manager_keys (redis w1) ->
            manager_keys (redis (fst (_update_job_status jid st error env w1)))).
  { intros jid st error w1 H1. rewrite _update_job_status_eq.
    destruct (read_job jid (redis w1)) as [[job|]|e] eqn:E; try exact H1.
    cbn [fst redis set_redis]. now apply manager_keys_status_written. }
  destruct c as [uid jtype pay prio delay | timeout | jid result | jid error retry];
    cbn [perform].
  - apply Henq.
  - rewrite dequeue_job_eq. apply manager_keys_dequeue_from. cbn [redis set_redis].
    now apply manager_keys_promoted.
  - rewrite complete_job_eq. destruct (read_job jid (redis w)) as [o|e]; [|exact H].
    cbn [fst redis set_redis set_stats].
    apply manager_keys_set_result; [now apply key_result|].
    now apply manager_keys_status_updated.
  - rewrite fail_job_eq.
    destruct (read_job jid (redis w)) as [[job0|]|e]; [| exact H | exact H].
    cbn zeta. set (job := with_retry_count job0 (retry_count job0 + 1)).
    destruct (retry && _); [|now apply Hfin].
    specialize (Henq (user_id job) (job_type job) (payload job) (priority job)
                     (backoff (retry_count job))).
    rewrite enqueue_job_eq in Henq.
    destruct (enqueue_result _ _ _ _ _ env w) as [w1 [[[[|] reason] nid]|e]];
      cbn [fst] in Henq; auto.
Qed.

Lemma manager_keys_perform_all trace w :
  Forall tame trace -> manager_keys (redis w) ->
  manager_keys (redis (perform_all trace w)).
Proof.
  revert w. induction trace as [|[env c] trace IH]; intros w Ht H; [exact H|].
  apply Forall_cons in Ht as (Ht1 & Ht). cbn [perform_all].
  apply IH; [exact Ht|]. now apply manager_keys_perform.
Qed.

(** Whatever calls are made, with job ids that are UUIDs, on a store that
    holds keys of the manager only, [get_concurrent_jobs] finds no key: the
    concurrent-jobs limit never rejects a user. *)
Lemma concurrent_limit_never_applies trace w uid env :
  Forall tame trace -> manager_keys (redis w) ->
  get_concurrent_jobs uid env (perform_all trace w) = (perform_all trace w, Ok 0).
Proof.
  intros Ht H. apply get_concurrent_jobs_is_zero. intros key.
  apply manager_keys_all. now apply manager_keys_perform_all.
Qed.
